(** * data-table-cleaner: delimiter detection, cleaning and Markdown export

    A shallow embedding of the pure helpers of [src/src/App.jsx]
    ([splitLine], [normalizeCell], [rowHasAnyValue], [removeEmptyColumns],
    [parseRowsSimple], [scoreTable], [chooseBestTableSimple],
    [escapeMarkdownCell], [toMarkdownTable]) and of the two pure pieces of
    the [App] component ([applyCleaning] and the [useMemo] that picks the
    parsing path), followed by the properties of the specification.

    Modelling conventions.
    - A JavaScript string is a [string]: a sequence of 8-bit code units.
      Every helper of the source works code unit by code unit, so only the
      set of white-space characters depends on this choice; it is the
      restriction of the ECMAScript white-space set to code units below 256.
    - Every cell that reaches the helpers is a string ([splitLine] returns
      strings and the importers apply [(v ?? "").toString()]), so the
      coalescing [(c ?? "").toString()] is the identity and is not written.
      A read past the end of a row, [row[j] ?? ""], is [nth j row ""].
    - [Infinity] is a constructor of [score]; every finite score of the
      source is a natural number. *)

From Stdlib Require Import Bool Arith NArith List Lia.
From Stdlib Require Import Ascii String.
Import ListNotations.

Open Scope string_scope.
Open Scope list_scope.
Open Scope nat_scope.

(** ** Characters *)

Definition TAB : ascii := "009"%char.
Definition LF : ascii := "010"%char.
Definition CR : ascii := "013"%char.
Definition SPACE : ascii := " "%char.
Definition PIPE : ascii := "|"%char.
Definition BACKSLASH : ascii := "\"%char.

(** The characters matched by the regular expression class [\s] and removed
    by [String.prototype.trim]: TAB, LF, VT, FF, CR, SPACE and NBSP. *)
Definition isWhitespace (c : ascii) : bool :=
  let n := nat_of_ascii c in
  (9 <=? n) && (n <=? 13) || (n =? 32) || (n =? 160).

(** ** String primitives of the host language *)

Module JS.

(** [s.includes(needle)]. *)
Fixpoint includes (needle s : string) : bool :=
  match s with
  | EmptyString => prefix needle s
  | String _ s' => prefix needle s || includes needle s'
  end.

(** [parts.join(sep)]. *)
Fixpoint join (sep : string) (parts : list string) : string :=
  match parts with
  | [] => ""
  | [p] => p
  | p :: rest => (p ++ sep ++ join sep rest)%string
  end.

(** Prepends a code unit to the first piece of a split under construction. *)
Definition consHead (c : ascii) (parts : list string) : list string :=
  match parts with
  | [] => [String c ""]
  | p :: rest => String c p :: rest
  end.

(** [s.split(sep)] for a non-empty string [sep]: the pieces between the
    occurrences of [sep], found from left to right without overlap.
    [skip] counts the code units of the occurrence being stepped over. *)
Fixpoint splitFrom (sep : string) (skip : nat) (s : string) : list string :=
  match s with
  | EmptyString => [""]
  | String c s' =>
      match skip with
      | S k => splitFrom sep k s'
      | O =>
          if prefix sep s
          then "" :: splitFrom sep (String.length sep - 1) s'
          else consHead c (splitFrom sep 0 s')
      end
  end.

Definition split (s sep : string) : list string := splitFrom sep 0 s.

(** [s.split(/ {2,}/)]: the separators are the maximal runs of two or more
    SPACE characters.  [run] is the number of spaces (capped at 2) that
    immediately precede the current position and belong to the current
    run; a lone space is put back into the piece when the run ends. *)
Fixpoint splitSpacesFrom (run : nat) (s : string) : list string :=
  match s with
  | EmptyString =>
      match run with
      | 0 => [""]
      | 1 => [" "]
      | _ => [""; ""]
      end
  | String c s' =>
      if Ascii.eqb c SPACE then
        match run with
        | 0 => splitSpacesFrom 1 s'
        | _ => splitSpacesFrom 2 s'
        end
      else
        match run with
        | 0 => consHead c (splitSpacesFrom 0 s')
        | 1 => consHead SPACE (consHead c (splitSpacesFrom 0 s'))
        | _ => "" :: consHead c (splitSpacesFrom 0 s')
        end
  end.

Definition splitSpaces (s : string) : list string := splitSpacesFrom 0 s.

(** [s.trimStart()] and [s.trimEnd()]; [s.trim()] is their composition. *)
Fixpoint trimStart (s : string) : string :=
  match s with
  | EmptyString => ""
  | String c s' => if isWhitespace c then trimStart s' else s
  end.

Fixpoint trimEnd (s : string) : string :=
  match s with
  | EmptyString => ""
  | String c s' =>
      match trimEnd s' with
      | EmptyString => if isWhitespace c then "" else String c ""
      | r => String c r
      end
  end.

Definition trim (s : string) : string := trimEnd (trimStart s).

(** [s.replace(/\s+/g, " ")]: every maximal run of white space becomes one
    SPACE.  [inRun] tells whether the previous code unit was white space. *)
Fixpoint collapseFrom (inRun : bool) (s : string) : string :=
  match s with
  | EmptyString => ""
  | String c s' =>
      if isWhitespace c
      then if inRun then collapseFrom true s'
           else String SPACE (collapseFrom true s')
      else String c (collapseFrom false s')
  end.

Definition collapseWhitespace (s : string) : string := collapseFrom false s.

(** [s.replace(/\r?\n/g, " ")]: every LF, together with a CR directly
    before it, becomes one SPACE. *)
Fixpoint replaceNewlines (s : string) : string :=
  match s with
  | EmptyString => ""
  | String c s' =>
      if Ascii.eqb c LF then String SPACE (replaceNewlines s')
      else if Ascii.eqb c CR then
        match s' with
        | String c' s'' =>
            if Ascii.eqb c' LF then String SPACE (replaceNewlines s'')
            else String c (replaceNewlines s')
        | EmptyString => String c ""
        end
      else String c (replaceNewlines s')
  end.

(** [s.replace(/\|/g, "\\|")]: a backslash goes before every pipe. *)
Fixpoint escapePipes (s : string) : string :=
  match s with
  | EmptyString => ""
  | String c s' =>
      if Ascii.eqb c PIPE
      then String BACKSLASH (String PIPE (escapePipes s'))
      else String c (escapePipes s')
  end.

End JS.

(** [Math.max(...ns)] on a non-empty array of lengths.  Every call site of
    the source guards against the empty array before it takes the maximum. *)
Definition maxOf (ns : list nat) : nat := fold_right Nat.max 0 ns.

(** [|n - m|] on lengths. *)
Definition absDiff (n m : nat) : nat := (n - m) + (m - n).

(** ** Parsing helpers *)

Definition row := list string.
Definition table := list row.

(** [splitLine(line, delimiter)].  [delimiter] is [null] ([None]) or a string;
    the test [if (delimiter)] succeeds exactly for a non-empty string. *)
Definition splitLine (line : string) (delimiter : option string) : row :=
  match delimiter with
  | Some (String c d) => JS.split line (String c d)
  | _ =>
      if JS.includes (String TAB "") line then JS.split line (String TAB "")
      else if JS.includes ";" line then JS.split line ";"
      else if JS.includes "|" line then JS.split line "|"
      else JS.splitSpaces line
  end.

Definition normalizeCell (cell : string) (collapseSpaces : bool) : string :=
  if negb collapseSpaces then cell
  else JS.collapseWhitespace (JS.trim cell).

(** [(c ?? "").toString().trim() !== ""]. *)
Definition cellHasValue (c : string) : bool := negb (String.eqb (JS.trim c) "").

Definition rowHasAnyValue (r : row) : bool := existsb cellHasValue r.

(** One turn of the outer loop of [removeEmptyColumns]: for every index [j]
    below [maxCols] (the length of [colHasValue]) the flag is raised when
    [row[j] ?? ""] is not blank. *)
Fixpoint markRow (j : nat) (colHasValue : list bool) (r : row) : list bool :=
  match colHasValue with
  | [] => []
  | b :: rest =>
      (if cellHasValue (nth j r "") then true else b) :: markRow (S j) rest r
  end.

(** [row.filter((_, j) => colHasValue[j])], from index [j] on; a flag read
    past the end of [colHasValue] is [undefined], which drops the cell. *)
Fixpoint keepMarked (r : row) (colHasValue : list bool) : row :=
  match r, colHasValue with
  | c :: r', b :: rest =>
      if b then c :: keepMarked r' rest else keepMarked r' rest
  | _, _ => []
  end.

Definition columnFlags (t : table) : list bool :=
  let maxCols := maxOf (map (@List.length string) t) in
  fold_left (markRow 0) t (repeat false maxCols).

Definition removeEmptyColumns (t : table) : table :=
  match t with
  | [] => t
  | _ :: _ =>
      let colHasValue := columnFlags t in
      map (fun r => keepMarked r colHasValue) t
  end.

Definition parseRowsSimple (lines : list string) (delimiter : option string)
    (collapseSpaces : bool) : table :=
  map (fun line =>
         map (fun c => normalizeCell c collapseSpaces) (splitLine line delimiter))
      lines.

(** ** Scoring *)

Inductive score : Type :=
| Finite (n : nat)
| Infinity.

(** [s < t] on scores. *)
Definition score_ltb (s t : score) : bool :=
  match s, t with
  | Finite a, Finite b => a <? b
  | Finite _, Infinity => true
  | Infinity, _ => false
  end.

(** The [Map] of [scoreTable]: keys in insertion order, one entry per key. *)
Definition countMap := list (nat * nat).

Fixpoint mapGet (k : nat) (m : countMap) : option nat :=
  match m with
  | [] => None
  | (k', v) :: m' => if k =? k' then Some v else mapGet k m'
  end.

(** [m.set(k, v)]: an existing key keeps its place, a new key goes last. *)
Fixpoint mapSet (k v : nat) (m : countMap) : countMap :=
  match m with
  | [] => [(k, v)]
  | (k', v') :: m' => if k =? k' then (k, v) :: m' else (k', v') :: mapSet k v m'
  end.

(** [counts.set(n, (counts.get(n) || 0) + 1)]. *)
Definition countStep (counts : countMap) (n : nat) : countMap :=
  mapSet n (match mapGet n counts with Some f => f | None => 0 end + 1) counts.

Definition countLengths (rowLengths : list nat) : countMap :=
  fold_left countStep rowLengths [].

(** The loop that looks for the mode; the state is [(bestCount, modeCols)]. *)
Definition modeStep (st : nat * nat) (entry : nat * nat) : nat * nat :=
  let '(bestCount, _) := st in
  let '(cols, freq) := entry in
  if bestCount <? freq then (freq, cols) else st.

Definition findMode (counts : countMap) : nat * nat :=
  fold_left modeStep counts (0, 0).

Definition rowLengthsOf (t : table) : list nat :=
  filter (fun n => 0 <? n) (map (@List.length string) t).

Definition scoreTable (t : table) : score :=
  let rowLengths := rowLengthsOf t in
  if List.length rowLengths =? 0 then Infinity
  else
    let maxCols := maxOf rowLengths in
    if maxCols <=? 1 then Infinity
    else
      let counts := countLengths rowLengths in
      let '(bestCount, modeCols) := findMode counts in
      let inconsistent := List.length rowLengths - bestCount in
      let raggedPenalty :=
        fold_left (fun sum n => sum + absDiff n modeCols) rowLengths 0 in
      Finite (inconsistent * 10 + raggedPenalty).

(** ** Choosing the best candidate *)

Record candidate : Type := { name : string; delim : option string }.

Definition candidates : list candidate :=
  [ {| name := "tabs"; delim := Some (String TAB "") |};
    {| name := "pipe"; delim := Some "|" |};
    {| name := "semicolon"; delim := Some ";" |};
    {| name := "spaces"; delim := None |} ].

Record detection : Type := { parsedTable : table; detected : string }.

(** The three variables [best], [bestDetected] and [bestScore] of the loop. *)
Record bestState : Type :=
  { best : table; bestDetected : string; bestScore : score }.

Definition initialBest : bestState :=
  {| best := []; bestDetected := "auto"; bestScore := Infinity |}.

Definition chooseStep (lines : list string) (collapseSpaces : bool)
    (st : bestState) (c : candidate) : bestState :=
  let parsed := parseRowsSimple lines (delim c) collapseSpaces in
  let s := scoreTable parsed in
  if score_ltb s (bestScore st)
  then {| best := parsed; bestDetected := name c; bestScore := s |}
  else st.

(** The loop of [chooseBestTableSimple] over any list of candidates. *)
Definition chooseAmong (cs : list candidate) (lines : list string)
    (collapseSpaces : bool) : bestState :=
  fold_left (chooseStep lines collapseSpaces) cs initialBest.

Definition chooseBestTableSimple (lines : list string) (collapseSpaces : bool)
    : detection :=
  let st := chooseAmong candidates lines collapseSpaces in
  {| parsedTable := best st; detected := bestDetected st |}.

(** ** Markdown *)

Definition escapeMarkdownCell (s : string) : string :=
  JS.escapePipes (JS.replaceNewlines s).

(** [Array.from({ length: maxCols }, (_, i) => r[i] ?? "")]. *)
Definition padRow (maxCols : nat) (r : row) : row :=
  map (fun i => nth i r "") (seq 0 maxCols).

(** The template [`| ${cells.join(" | ")} |`]. *)
Definition markdownLine (cells : row) : string :=
  ("| " ++ JS.join " | " cells ++ " |")%string.

Definition toMarkdownTable (data : table) : string :=
  match data with
  | [] => ""
  | _ :: _ =>
      let maxCols := maxOf (map (@List.length string) data) in
      let padded :=
        map (fun r => map escapeMarkdownCell (padRow maxCols r)) data in
      let header := hd [] padded in
      let body := tl padded in
      let headerLine := markdownLine header in
      let separatorLine := markdownLine (map (fun _ => "---") header) in
      let bodyLines := map markdownLine body in
      JS.join (String LF "") (headerLine :: separatorLine :: bodyLines)
  end.

(** ** The component: cleaning and the choice of the parsing path *)

(** The three option flags held in the state of [App]. *)
Record CleaningOptions : Type :=
  { collapseSpacesOpt : bool;
    removeEmptyRowsOpt : bool;
    removeEmptyColsOpt : bool }.

Definition applyCleaning (o : CleaningOptions) (t : table) : table :=
  let out := map (fun r => map (fun c => normalizeCell c (collapseSpacesOpt o)) r) t in
  let out := if removeEmptyRowsOpt o then filter rowHasAnyValue out else out in
  let out := if removeEmptyColsOpt o then removeEmptyColumns out else out in
  out.

(** The raw table and the label computed by the [useMemo] of [App] for pasted
    text, before [applyCleaning]: the branch of a custom delimiter and the
    branch of [chooseBestTableSimple].  The two branches that hand the input
    to an external reader (spreadsheet, comma-separated text) are not part
    of it. *)
Definition infer (lines : list string) (customDelimiter : string)
    (collapseSpaces : bool) : detection :=
  match customDelimiter with
  | String _ _ =>
      {| parsedTable := parseRowsSimple lines (Some customDelimiter) collapseSpaces;
         detected := ("custom (" ++ customDelimiter ++ ")")%string |}
  | EmptyString => chooseBestTableSimple lines collapseSpaces
  end.

(** [table.length > 0 && table.some((r) => r.length > 1)]. *)
Definition hasTable (t : table) : bool :=
  (0 <? List.length t) && existsb (fun r => 1 <? List.length r) t.

(** The names of the specification for the operations above. *)
Definition clean (t : table) (o : CleaningOptions) : table := applyCleaning o t.
Definition serializeMarkdown (t : table) : string := toMarkdownTable t.

(** ** The wording of the specification, as definitions of its own *)

Module Spec.

(** The single-delimiter-line rule: the first delimiter present in the line,
    tried in the order tab, semicolon, pipe; otherwise runs of 2+ spaces. *)
Definition signalPriority : list string := [String TAB ""; ";"; "|"].

Definition singleDelimiterLineRule (line : string) : row :=
  match find (fun d => JS.includes d line) signalPriority with
  | Some d => JS.split line d
  | None => JS.splitSpaces line
  end.

(** A line without any of the four signals. *)
Definition noSignal (line : string) : bool :=
  negb (JS.includes (String TAB "") line)
  && negb (JS.includes ";" line)
  && negb (JS.includes "|" line)
  && negb (JS.includes "  " line).

(** The literal delimiter the specification gives to a named strategy. *)
Definition literalOf (strategy : string) : option string :=
  if String.eqb strategy "tabs" then Some (String TAB "")
  else if String.eqb strategy "pipe" then Some "|"
  else if String.eqb strategy "semicolon" then Some ";"
  else None.

(** A cell is blank when nothing is left of it after the trim. *)
Definition blank (c : string) : bool := String.eqb (JS.trim c) "".

(** The three passes of the cleaner. *)
Definition normalizeAll (collapseSpaces : bool) (t : table) : table :=
  map (map (fun c => normalizeCell c collapseSpaces)) t.

Definition dropEmptyRows (t : table) : table :=
  filter (fun r => negb (forallb blank r)) t.

(** Column [j] is empty when the cell of every row at [j] is blank, a
    missing cell being the empty string. *)
Definition columnIsEmpty (t : table) (j : nat) : bool :=
  forallb (fun r => blank (nth j r "")) t.

Definition dropEmptyColumns (t : table) : table :=
  map (fun r =>
         map snd
           (filter (fun jc => negb (columnIsEmpty t (fst jc)))
              (combine (seq 0 (List.length r)) r)))
      t.

(** The distribution of cell counts: the counts of the rows that have at
    least one cell. *)
Definition distribution (t : table) : list nat :=
  map (@List.length string)
    (filter (fun r => match r with [] => false | _ :: _ => true end) t).

(** The number of times [n] occurs in [l]. *)
Definition frequency (n : nat) (l : list nat) : nat := count_occ Nat.eq_dec l n.

(** [m] is the mode of [l]: no value is more frequent, and every value met
    before the first occurrence of [m] is strictly less frequent. *)
Definition isMode (m : nat) (l : list nat) : Prop :=
  exists before after,
    l = before ++ m :: after /\
    ~ In m before /\
    (forall k, In k before -> frequency k l < frequency m l) /\
    (forall k, In k l -> frequency k l <= frequency m l).

(** [10 x (rows whose count differs from the mode) + sum of |count - mode|]. *)
Definition consistency (m : nat) (l : list nat) : nat :=
  10 * List.length (filter (fun n => negb (n =? m)) l)
  + list_sum (map (fun n => absDiff n m) l).

(** The text of a cell in a Markdown table: every line break, a line feed
    alone or right after a carriage return, becomes one space, every pipe
    gets a backslash before it, and every other character is kept. *)
Fixpoint escapeCell (s : string) : string :=
  match s with
  | EmptyString => ""
  | String c s' =>
      if Ascii.eqb c LF then String SPACE (escapeCell s')
      else if Ascii.eqb c PIPE
      then String BACKSLASH (String PIPE (escapeCell s'))
      else
        match s' with
        | String c' s'' =>
            if Ascii.eqb c CR && Ascii.eqb c' LF
            then String SPACE (escapeCell s'')
            else String c (escapeCell s')
        | EmptyString => String c ""
        end
  end.

(** A row padded with empty strings up to a width. *)
Definition padTo (width : nat) (r : row) : row :=
  r ++ repeat "" (width - List.length r).

(** The line [| c1 | c2 | ... | cn |] of the cells [c1 ... cn]: a pipe,
    then every cell between two spaces and followed by a pipe.  Without any
    cell the line is a pipe, two spaces and a pipe. *)
Definition rowLine (cells : row) : string :=
  match cells with
  | [] => "|  |"
  | _ :: _ =>
      String PIPE
        (fold_right (fun c rest => " " ++ c ++ " |" ++ rest)%string "" cells)
  end.

(** Lines put one after the other, a line feed between two lines. *)
Definition textOfLines (lines : list string) : string :=
  match lines with
  | [] => ""
  | l :: rest =>
      (l ++ fold_right (fun x acc => String LF (x ++ acc)) "" rest)%string
  end.

(** The rows of a Markdown table, one line each. *)
Definition markdownRow (width : nat) (r : row) : string :=
  rowLine (map escapeCell (padTo width r)).

Definition markdownSeparator (width : nat) : string :=
  rowLine (repeat "---" width).

End Spec.

(** ** Notions used in the statements and in the proofs *)

(** [tidyFrom b s]: [s] holds no white space but single SPACE characters,
    each followed by a character that is not white space; when [b] is set,
    [s] moreover is not empty and does not start with white space. *)
Fixpoint tidyFrom (b : bool) (s : string) : bool :=
  match s with
  | EmptyString => negb b
  | String c s' =>
      if isWhitespace c
      then negb b && Ascii.eqb c SPACE && tidyFrom true s'
      else tidyFrom false s'
  end.

(** [s] does not start with white space. *)
Definition startsClean (s : string) : bool :=
  match s with
  | EmptyString => true
  | String c _ => negb (isWhitespace c)
  end.

(** [s.slice(k)]. *)
Fixpoint dropChars (k : nat) (s : string) : string :=
  match k, s with
  | S k', String _ s' => dropChars k' s'
  | _, _ => s
  end.

(** The largest row length of [t], the [maxCols] of the source. *)
Definition width (t : table) : nat := maxOf (map (@List.length string) t).

(** Column [j] has a value in some row of [t]. *)
Definition colHas (t : table) (j : nat) : bool :=
  existsb (fun r => cellHasValue (nth j r "")) t.

(** The number of flagged columns among the [i] columns from [k] on. *)
Definition rank (g : nat -> bool) (k i : nat) : nat :=
  List.length (filter g (seq k i)).

(** Every cell of [t] is left as it is by [normalizeCell]. *)
Definition normalized (b : bool) (t : table) : Prop :=
  forall r c, In r t -> In c r -> normalizeCell c b = c.

(** All the rows of [t] have the length of its first row. *)
Definition uniform (t : table) : Prop :=
  forall r, In r t -> List.length r = List.length (hd [] t).

(** The defaults of [App]: the three options on. *)
Definition allOptions : CleaningOptions :=
  {| collapseSpacesOpt := true; removeEmptyRowsOpt := true;
     removeEmptyColsOpt := true |}.

(** The distinct values of a list, in the order of their first occurrence. *)
Fixpoint distinctFirst (l : list nat) : list nat :=
  match l with
  | [] => []
  | x :: l' => x :: filter (fun y => negb (y =? x)) (distinctFirst l')
  end.

(** Two of the four candidates. *)
Definition pipeCandidate : candidate := {| name := "pipe"; delim := Some "|" |}.

Definition spacesCandidate : candidate := {| name := "spaces"; delim := None |}.

(** Every pipe of [s] comes right after a backslash; [prev] tells whether
    the character before [s] is a backslash. *)
Fixpoint pipesEscapedFrom (prev : bool) (s : string) : bool :=
  match s with
  | EmptyString => true
  | String c s' =>
      if Ascii.eqb c PIPE then prev && pipesEscapedFrom false s'
      else pipesEscapedFrom (Ascii.eqb c BACKSLASH) s'
  end.

(** The character [a] occurs in [s]. *)
Fixpoint occurs (a : ascii) (s : string) : bool :=
  match s with
  | EmptyString => false
  | String c s' => Ascii.eqb c a || occurs a s'
  end.

(** ** The rest of the component: lines, exports and file loading *)

(** [text.replace(/\r\n/g, "\n")]: every CR directly followed by LF goes. *)
Fixpoint replaceCRLF (s : string) : string :=
  match s with
  | EmptyString => ""
  | String c s' =>
      if Ascii.eqb c CR then
        match s' with
        | String c' s'' =>
            if Ascii.eqb c' LF then String LF (replaceCRLF s'')
            else String c (replaceCRLF s')
        | EmptyString => String c ""
        end
      else String c (replaceCRLF s')
  end.

(** [normalizedText.split("\n").filter((l) => l.length > 0)]. *)
Definition linesOf (normalizedText : string) : list string :=
  filter (fun l => 0 <? String.length l) (JS.split normalizedText (String LF "")).

Definition looksLikeCSV (lines : list string) : bool :=
  (0 <? List.length lines)
  && existsb (fun r => JS.includes "," r) lines
  && negb (existsb (fun r => JS.includes "|" r || JS.includes ";" r) lines).

(** The text copied for spreadsheets:
    [exportTable.map((r) => r.join("\t")).join("\n")]. *)
Definition toTSV (t : table) : string :=
  JS.join (String LF "") (map (fun r => JS.join (String TAB "") r) t).

(** [s.toLowerCase()] on 8-bit code units: the letters A-Z and the capital
    letters of the upper half of the range (all of 192-222 but 215). *)
Definition lowerChar (c : ascii) : ascii :=
  let n := nat_of_ascii c in
  if (65 <=? n) && (n <=? 90) || (192 <=? n) && (n <=? 222) && negb (n =? 215)
  then ascii_of_nat (n + 32)
  else c.

Fixpoint toLowerCase (s : string) : string :=
  match s with
  | EmptyString => ""
  | String c s' => String (lowerChar c) (toLowerCase s')
  end.

(** What the loaders read of a [File]. *)
Record file : Type := { fileName : string; fileSize : N }.

(** [(file.name.split(".").pop() || "").toLowerCase()]. *)
Definition extensionOf (f : file) : string :=
  toLowerCase (last (JS.split (fileName f) ".") "").

(** [10 * 1024 * 1024]. *)
Definition maxBytes : N := (10 * 1024 * 1024)%N.

(** The state of [App], one field per [useState]; the three cleaning
    options are kept together. *)
Record AppState : Type :=
  { text : string;
    customDelimiter : string;
    importedTable : option table;
    importedMeta : string;
    excludeFirstRowExport : bool;
    options : CleaningOptions;
    isDragging : bool;
    fileInfo : string;
    fileError : string }.

(** The reading that a loader starts on its [FileReader]. *)
Inductive reading : Type :=
| ReadAsText (f : file)
| ReadAsArrayBuffer (f : file).

Definition setFileError (msg : string) (st : AppState) : AppState :=
  {| text := text st; customDelimiter := customDelimiter st;
     importedTable := importedTable st; importedMeta := importedMeta st;
     excludeFirstRowExport := excludeFirstRowExport st; options := options st;
     isDragging := isDragging st; fileInfo := fileInfo st; fileError := msg |}.

(** The calls [setFileError(""); setImportedTable(null); setImportedMeta("")]
    that open [loadTextFile]. *)
Definition resetForText (st : AppState) : AppState :=
  {| text := text st; customDelimiter := customDelimiter st;
     importedTable := None; importedMeta := "";
     excludeFirstRowExport := excludeFirstRowExport st; options := options st;
     isDragging := isDragging st; fileInfo := fileInfo st; fileError := "" |}.

(** The calls [setFileError(""); setText(""); setCustomDelimiter("")] that
    open [loadXlsxFile]. *)
Definition resetForXlsx (st : AppState) : AppState :=
  {| text := ""; customDelimiter := "";
     importedTable := importedTable st; importedMeta := importedMeta st;
     excludeFirstRowExport := excludeFirstRowExport st; options := options st;
     isDragging := isDragging st; fileInfo := fileInfo st; fileError := "" |}.

(** The part of [loadTextFile] that runs before the reader answers: the new
    state and the reading it starts, if any. *)
Definition loadTextFile (st : AppState) (f : file) : AppState * option reading :=
  let st := resetForText st in
  if (maxBytes <? fileSize f)%N then
    (setFileError "File too large. Please use a smaller file (≤ 10MB)." st, None)
  else
    let ext := extensionOf f in
    if negb (String.eqb ext "csv" || String.eqb ext "txt") then
      (setFileError "Unsupported file type. Please drop a .csv or .txt file." st,
       None)
    else (st, Some (ReadAsText f)).

Definition loadXlsxFile (st : AppState) (f : file) : AppState * option reading :=
  let st := resetForXlsx st in
  if (maxBytes <? fileSize f)%N then
    (setFileError
       "XLSX file too large. Please use ≤ 10MB or export a smaller CSV from Excel."
       st, None)
  else (st, Some (ReadAsArrayBuffer f)).

Definition loadFile (st : AppState) (f : file) : AppState * option reading :=
  let ext := extensionOf f in
  if String.eqb ext "xlsx" then loadXlsxFile st f
  else if String.eqb ext "csv" || String.eqb ext "txt" then loadTextFile st f
  else
    (setFileError "Unsupported file type. Please use .csv, .txt, or .xlsx." st,
     None).

Section View.

(** The delimited-text reader of the comma-separated branch,
    [Papa.parse(normalizedText, { skipEmptyLines: true }).data] with every
    cell turned into a string; it is a library outside the repository. *)
Variable papaParse : string -> table.

(** The [useMemo] of [App]: the cleaned table that is shown and the label. *)
Definition tableAndDetected (st : AppState) : detection :=
  let normalizedText := replaceCRLF (text st) in
  let collapse := collapseSpacesOpt (options st) in
  match importedTable st with
  | Some (r :: t) =>
      {| parsedTable := applyCleaning (options st) (r :: t); detected := "xlsx" |}
  | _ =>
      let lines := linesOf normalizedText in
      match customDelimiter st with
      | String _ _ =>
          let parsed :=
            parseRowsSimple lines (Some (customDelimiter st)) collapse in
          {| parsedTable := applyCleaning (options st) parsed;
             detected := ("custom (" ++ customDelimiter st ++ ")")%string |}
      | EmptyString =>
          if looksLikeCSV lines then
            {| parsedTable := applyCleaning (options st) (papaParse normalizedText);
               detected := "csv" |}
          else
            let result := chooseBestTableSimple lines collapse in
            {| parsedTable := applyCleaning (options st) (parsedTable result);
               detected := detected result |}
      end
  end.

End View.

(** ** More notions used in the statements *)

(** [u] is [l] with some of its elements deleted. *)
Inductive deletion {A : Type} : list A -> list A -> Prop :=
| deletion_nil : deletion [] []
| deletion_keep x u l : deletion u l -> deletion (x :: u) (x :: l)
| deletion_drop x u l : deletion u l -> deletion u (x :: l).

(** A run of [k] spaces. *)
Fixpoint spaceRun (k : nat) : string :=
  match k with
  | O => ""
  | S k' => String SPACE (spaceRun k')
  end.

Definition startsWithSpace (s : string) : bool :=
  match s with
  | EmptyString => false
  | String c _ => Ascii.eqb c SPACE
  end.

Fixpoint endsWithSpace (s : string) : bool :=
  match s with
  | EmptyString => false
  | String c EmptyString => Ascii.eqb c SPACE
  | String _ s' => endsWithSpace s'
  end.

(** [SplitOnSpaceRuns line cells]: [cells] are the pieces of [line] between
    its runs of two or more spaces, every run being taken whole: a cell
    holds no two spaces in a row, a cell before a run does not end with a
    space and what follows a run does not start with one. *)
Inductive SplitOnSpaceRuns : string -> list string -> Prop :=
| split_last (c : string) :
    JS.includes "  " c = false -> SplitOnSpaceRuns c [c]
| split_run (c : string) (k : nat) (rest : string) (cells : list string) :
    JS.includes "  " c = false ->
    endsWithSpace c = false ->
    2 <= k ->
    startsWithSpace rest = false ->
    SplitOnSpaceRuns rest cells ->
    SplitOnSpaceRuns (c ++ spaceRun k ++ rest) (c :: cells).

(** Every character of [s] is white space. *)
Fixpoint allWhitespace (s : string) : bool :=
  match s with
  | EmptyString => true
  | String c s' => isWhitespace c && allWhitespace s'
  end.

(** The inverse of [JS.escapePipes]: a backslash before a pipe goes. *)
Fixpoint unescapePipes (s : string) : string :=
  match s with
  | EmptyString => ""
  | String c s' =>
      match s' with
      | String c' s'' =>
          if Ascii.eqb c BACKSLASH && Ascii.eqb c' PIPE
          then String PIPE (unescapePipes s'')
          else String c (unescapePipes s')
      | EmptyString => String c ""
      end
  end.

(** * Properties *)

(** ** White space: trimming and collapsing *)

Lemma tidyFrom_trimStart s : tidyFrom true s = true -> JS.trimStart s = s.
Proof.
  destruct s as [|c s]; simpl; [discriminate|].
  destruct (isWhitespace c); simpl; [discriminate|reflexivity].
Qed.

Lemma tidyFrom_trimEnd b s : tidyFrom b s = true -> JS.trimEnd s = s.
Proof.
  revert b; induction s as [|c s IH]; intros b H; simpl in *; [reflexivity|].
  destruct (isWhitespace c) eqn:Hc.
  - apply andb_prop in H as [_ H].
    rewrite (IH _ H).
    destruct s; [discriminate H|reflexivity].
  - rewrite (IH _ H). destruct s; reflexivity.
Qed.

Lemma tidyFrom_collapse s :
  (tidyFrom true s = true -> forall f, JS.collapseFrom f s = s) /\
  (tidyFrom false s = true -> JS.collapseFrom false s = s).
Proof.
  induction s as [|c s [IHt IHf]]; simpl.
  - split; reflexivity.
  - destruct (isWhitespace c) eqn:Hc; simpl.
    + split; [discriminate|].
      intros H. apply andb_prop in H as [Hsp H].
      apply Ascii.eqb_eq in Hsp. subst c.
      now rewrite (IHt H true).
    + split; intros H; [intros f|]; now rewrite (IHf H).
Qed.

Lemma trimEnd_idempotent s : JS.trimEnd (JS.trimEnd s) = JS.trimEnd s.
Proof.
  induction s as [|c s IH]; simpl; [reflexivity|].
  destruct (JS.trimEnd s) as [|c' r] eqn:Hr.
  - destruct (isWhitespace c) eqn:Hc; simpl; [reflexivity|now rewrite Hc].
  - change (JS.trimEnd (String c (String c' r)) = String c (String c' r)).
    simpl. simpl in IH.
    destruct (JS.trimEnd r) as [|c'' r'] eqn:Hr'.
    + destruct (isWhitespace c'); [discriminate|]. now injection IH as ->.
    + now injection IH as ->.
Qed.

Lemma trimStart_startsClean s : startsClean (JS.trimStart s) = true.
Proof.
  induction s as [|c s IH]; [reflexivity|].
  cbn [JS.trimStart]. destruct (isWhitespace c) eqn:Hc; [exact IH|].
  simpl. now rewrite Hc.
Qed.

Lemma trimEnd_startsClean s :
  startsClean s = true -> startsClean (JS.trimEnd s) = true.
Proof.
  destruct s as [|c s]; simpl; [reflexivity|].
  intros H. destruct (JS.trimEnd s); [|exact H].
  destruct (isWhitespace c) eqn:Hc; [discriminate|].
  simpl. now rewrite Hc.
Qed.

Lemma trimEnd_fixed_cases c s :
  JS.trimEnd (String c s) = String c s ->
  (s = "" /\ isWhitespace c = false) \/ (JS.trimEnd s = s /\ s <> "").
Proof.
  simpl. destruct (JS.trimEnd s) as [|c' r] eqn:Hr.
  - destruct (isWhitespace c); [discriminate|].
    intros H. injection H as <-. now left.
  - intros H. injection H as <-. right. split; [reflexivity|discriminate].
Qed.

Lemma collapse_tidy s :
  JS.trimEnd s = s ->
  tidyFrom false (JS.collapseFrom false s) = true /\
  (s <> "" -> tidyFrom true (JS.collapseFrom true s) = true) /\
  (s <> "" -> startsClean s = true ->
   tidyFrom true (JS.collapseFrom false s) = true).
Proof.
  induction s as [|c s IH]; intros Hfix.
  - simpl. repeat split; congruence.
  - destruct (trimEnd_fixed_cases _ _ Hfix) as [[-> Hc]|[Hs Hne]].
    + simpl. rewrite Hc. simpl. rewrite Hc. simpl. repeat split; reflexivity.
    + destruct (IH Hs) as (IH1 & IH2 & _).
      simpl. destruct (isWhitespace c) eqn:Hc; simpl.
      * repeat split; auto.
      * rewrite Hc. repeat split; auto.
Qed.

Lemma normalizeCell_idempotent c b :
  normalizeCell (normalizeCell c b) b = normalizeCell c b.
Proof.
  unfold normalizeCell. destruct b; simpl; [|reflexivity].
  unfold JS.collapseWhitespace, JS.trim.
  set (y := JS.trimEnd (JS.trimStart c)).
  assert (Hfix : JS.trimEnd y = y) by apply trimEnd_idempotent.
  assert (Hst : startsClean y = true)
    by apply trimEnd_startsClean, trimStart_startsClean.
  destruct (collapse_tidy y Hfix) as (_ & _ & H3).
  destruct y as [|a y'] eqn:Hy; [reflexivity|].
  assert (Ht : tidyFrom true (JS.collapseFrom false (String a y')) = true)
    by (apply H3; [discriminate|assumption]).
  rewrite (tidyFrom_trimStart _ Ht), (tidyFrom_trimEnd _ _ Ht).
  now apply (proj1 (tidyFrom_collapse _)).
Qed.

(** ** Splitting on a literal separator *)

Lemma splitFrom_nonempty sep k s : JS.splitFrom sep k s <> [].
Proof.
  revert k; induction s as [|c s IH]; intros k; cbn [JS.splitFrom];
    [discriminate|].
  destruct k; [|apply IH].
  destruct (prefix sep (String c s)); [discriminate|].
  specialize (IH 0). destruct (JS.splitFrom sep 0 s); [contradiction|simpl; discriminate].
Qed.

Lemma join_cons sep p l :
  l <> [] -> JS.join sep (p :: l) = (p ++ sep ++ JS.join sep l)%string.
Proof. destruct l; [contradiction|reflexivity]. Qed.

Lemma join_consHead sep c l :
  l <> [] -> JS.join sep (JS.consHead c l) = String c (JS.join sep l).
Proof.
  destruct l as [|p [|q l]]; [contradiction| |]; reflexivity.
Qed.

Lemma prefix_split sep s :
  prefix sep s = true -> s = (sep ++ dropChars (String.length sep) s)%string.
Proof.
  revert s; induction sep as [|a sep IH]; intros s H; [reflexivity|].
  destruct s as [|c s]; simpl in H; [discriminate|].
  destruct (ascii_dec a c) as [->|]; [|discriminate].
  simpl. f_equal. now apply IH.
Qed.

Lemma prefix_append sep s r :
  prefix sep s = true -> prefix sep (s ++ r) = true.
Proof.
  revert s; induction sep as [|a sep IH]; intros s H;
    [destruct (s ++ r)%string; reflexivity|].
  destruct s as [|c s]; simpl in H; [discriminate|].
  simpl. destruct (ascii_dec a c); [now apply IH|discriminate].
Qed.

(** Joining the pieces with the separator gives the string back. *)
Lemma join_splitFrom sep k s :
  sep <> "" -> JS.join sep (JS.splitFrom sep k s) = dropChars k s.
Proof.
  intros Hsep. revert k; induction s as [|c s IH]; intros k.
  - destruct k; reflexivity.
  - destruct k as [|k]; [|apply IH].
    cbn [JS.splitFrom dropChars].
    destruct (prefix sep (String c s)) eqn:Hp.
    + rewrite join_cons by apply splitFrom_nonempty.
      rewrite IH. apply prefix_split in Hp.
      destruct sep as [|a sep]; [contradiction|].
      simpl in Hp |- *. rewrite Nat.sub_0_r. now symmetry.
    + rewrite join_consHead by apply splitFrom_nonempty. now rewrite IH.
Qed.

Lemma split_join s sep : sep <> "" -> JS.join sep (JS.split s sep) = s.
Proof. intros H. unfold JS.split. now rewrite join_splitFrom. Qed.

(** The first piece is a prefix of what is left of the string. *)
Lemma splitFrom_head sep k s :
  sep <> "" ->
  exists r, dropChars k s = (hd "" (JS.splitFrom sep k s) ++ r)%string.
Proof.
  intros Hsep. rewrite <- (join_splitFrom sep k s Hsep).
  pose proof (splitFrom_nonempty sep k s) as Hne.
  destruct (JS.splitFrom sep k s) as [|p [|q l]]; [contradiction| |].
  - exists "". simpl. clear. induction p; simpl; congruence.
  - exists (sep ++ JS.join sep (q :: l))%string. reflexivity.
Qed.

(** No piece holds an occurrence of the separator. *)
Lemma splitFrom_pieces sep k s :
  sep <> "" ->
  Forall (fun p => JS.includes sep p = false) (JS.splitFrom sep k s).
Proof.
  intros Hsep. revert k; induction s as [|c s IH]; intros k.
  - simpl. constructor; [|constructor].
    destruct sep; [contradiction|reflexivity].
  - destruct k as [|k]; [|apply IH].
    cbn [JS.splitFrom].
    destruct (prefix sep (String c s)) eqn:Hp.
    + constructor; [|apply IH]. destruct sep; [contradiction|reflexivity].
    + destruct (splitFrom_head sep 0 s Hsep) as [r Hr]. simpl in Hr.
      specialize (IH 0).
      destruct (JS.splitFrom sep 0 s) as [|p l] eqn:Hs;
        [now destruct (splitFrom_nonempty sep 0 s)|].
      apply Forall_cons_iff in IH as [Hp0 Hl].
      cbn [JS.consHead hd] in *. constructor; [|assumption].
      cbn [JS.includes]. rewrite Hp0, orb_false_r.
      destruct (prefix sep (String c p)) eqn:Hp'; [|reflexivity].
      apply (prefix_append _ _ r) in Hp'. cbn [append] in Hp'.
      rewrite <- Hr in Hp'. congruence.
Qed.

(** ** Columns: the flags of [removeEmptyColumns] *)

Lemma maxOf_ge x l : In x l -> x <= maxOf l.
Proof.
  induction l as [|y l IH]; simpl; [contradiction|].
  intros [->|H]; [lia|]. specialize (IH H). lia.
Qed.

Lemma maxOf_lt j l : j < maxOf l -> exists x, In x l /\ j < x.
Proof.
  induction l as [|y l IH]; simpl; [lia|].
  intros H. destruct (Nat.lt_ge_cases j y) as [Hy|Hy].
  - exists y; auto.
  - destruct IH as (x & Hx & Hj); [lia|]. exists x; auto.
Qed.

Lemma repeat_map_seq {A} (a : A) k n : repeat a n = map (fun _ => a) (seq k n).
Proof. revert k; induction n; intros k; simpl; [|rewrite (IHn (S k))]; reflexivity. Qed.

Lemma markRow_seq f r k n :
  markRow k (map f (seq k n)) r =
  map (fun j => cellHasValue (nth j r "") || f j) (seq k n).
Proof.
  revert k; induction n as [|n IH]; intros k; simpl; [reflexivity|].
  rewrite IH. now destruct (cellHasValue (nth k r "")).
Qed.

(** After the loop over the rows, the flag of a column is up when it was up
    at the start or when some row has a value in that column. *)
Lemma fold_markRow t f n :
  fold_left (markRow 0) t (map f (seq 0 n)) =
  map (fun j => f j || colHas t j) (seq 0 n).
Proof.
  revert f; induction t as [|r t IH]; intros f; simpl.
  - apply map_ext. intros j. now rewrite orb_false_r.
  - rewrite markRow_seq, IH. apply map_ext. intros j.
    destruct (cellHasValue (nth j r "")), (f j); reflexivity.
Qed.

Lemma columnFlags_spec t : columnFlags t = map (colHas t) (seq 0 (width t)).
Proof.
  unfold columnFlags. fold (width t).
  rewrite (repeat_map_seq false 0), fold_markRow. now apply map_ext.
Qed.

Lemma removeEmptyColumns_rows t :
  removeEmptyColumns t =
  map (fun r => keepMarked r (map (colHas t) (seq 0 (width t)))) t.
Proof.
  destruct t as [|r t]; [reflexivity|].
  unfold removeEmptyColumns. now rewrite columnFlags_spec.
Qed.

Lemma row_le_width r t : In r t -> List.length r <= width t.
Proof. intros H. apply maxOf_ge, in_map, H. Qed.

Lemma cellHasValue_in_range j r :
  cellHasValue (nth j r "") = true -> j < List.length r.
Proof.
  intros H. destruct (Nat.lt_ge_cases j (List.length r)) as [|Hge]; [assumption|].
  rewrite (nth_overflow _ _ Hge) in H. discriminate.
Qed.

(** ** Columns: which cells [keepMarked] keeps *)

Lemma keepMarked_all r n :
  List.length r <= n -> keepMarked r (repeat true n) = r.
Proof.
  revert n; induction r as [|c r IH]; intros n H; [reflexivity|].
  destruct n as [|n]; simpl in *; [lia|]. rewrite IH; [reflexivity|lia].
Qed.

Lemma keepMarked_length g r k n :
  List.length r <= n ->
  List.length (keepMarked r (map g (seq k n))) = rank g k (List.length r).
Proof.
  unfold rank. revert k n; induction r as [|c r IH]; intros k n H; [reflexivity|].
  destruct n as [|n]; simpl in *; [lia|].
  destruct (g k); simpl; rewrite IH by lia; reflexivity.
Qed.

Lemma keepMarked_In c r flags : In c (keepMarked r flags) -> In c r.
Proof.
  revert flags; induction r as [|a r IH]; intros flags; [simpl; tauto|].
  destruct flags as [|b flags]; simpl; [tauto|].
  destruct b; simpl; intros H; [destruct H; [now left|]|]; right; eauto.
Qed.

(** A cell of a flagged column lands at the rank of its column. *)
Lemma keepMarked_nth g r k n i :
  i < List.length r -> List.length r <= n -> g (k + i) = true ->
  nth (rank g k i) (keepMarked r (map g (seq k n))) "" = nth i r "".
Proof.
  unfold rank. revert k n i; induction r as [|c r IH]; intros k n i Hi Hn Hg;
    simpl in Hi; [lia|].
  destruct n as [|n]; simpl in Hn; [lia|].
  destruct i as [|i].
  - rewrite Nat.add_0_r in Hg. simpl. now rewrite Hg.
  - assert (IH' := IH (S k) n i ltac:(lia) ltac:(lia)).
    rewrite <- Nat.add_succ_comm in Hg. specialize (IH' Hg).
    cbn [seq map keepMarked filter]. destruct (g k); exact IH'.
Qed.

(** Every kept cell comes from a flagged column of that rank. *)
Lemma keepMarked_from g r k n j :
  j < List.length (keepMarked r (map g (seq k n))) -> List.length r <= n ->
  exists i, i < List.length r /\ g (k + i) = true /\ rank g k i = j.
Proof.
  unfold rank. revert k n j; induction r as [|c r IH]; intros k n j Hj Hn;
    [simpl in Hj; lia|].
  destruct n as [|n]; simpl in Hn; [lia|].
  cbn [seq map keepMarked] in Hj.
  destruct (g k) eqn:Hg.
  - destruct j as [|j].
    + exists 0. rewrite Nat.add_0_r. simpl. repeat split; [lia|assumption].
    + simpl in Hj. destruct (IH (S k) n j ltac:(lia) ltac:(lia)) as (i & Hi & Hgi & Hr).
      exists (S i). rewrite <- Nat.add_succ_comm.
      cbn [seq filter]. rewrite Hg. simpl. repeat split; [lia|assumption|now rewrite Hr].
  - destruct (IH (S k) n j Hj ltac:(lia)) as (i & Hi & Hgi & Hr).
    exists (S i). rewrite <- Nat.add_succ_comm.
    cbn [seq filter]. rewrite Hg. simpl. repeat split; [lia|assumption|assumption].
Qed.

(** The kept cells are the cells of the flagged columns, in order. *)
Lemma keepMarked_spec g r k n :
  List.length r <= n ->
  keepMarked r (map g (seq k n)) =
  map snd (filter (fun jc => g (fst jc)) (combine (seq k (List.length r)) r)).
Proof.
  revert k n; induction r as [|c r IH]; intros k n H; [reflexivity|].
  destruct n as [|n]; simpl in *; [lia|].
  destruct (g k); simpl; rewrite IH by lia; reflexivity.
Qed.

(** ** Column removal *)

Lemma colHas_true t j :
  colHas t j = true <->
  exists r, In r t /\ cellHasValue (nth j r "") = true.
Proof. apply existsb_exists. Qed.

(** A cell with a value survives the removal of the empty columns. *)
Lemma keepMarked_keeps_value t r i :
  In r t -> cellHasValue (nth i r "") = true ->
  let kept := keepMarked r (map (colHas t) (seq 0 (width t))) in
  nth (rank (colHas t) 0 i) kept "" = nth i r "" /\
  rank (colHas t) 0 i < List.length kept.
Proof.
  intros Hr Hv kept.
  assert (Hnth : nth (rank (colHas t) 0 i) kept "" = nth i r "").
  { apply keepMarked_nth.
    - now apply cellHasValue_in_range.
    - now apply row_le_width.
    - apply colHas_true. now exists r. }
  split; [assumption|].
  destruct (Nat.lt_ge_cases (rank (colHas t) 0 i) (List.length kept)) as [|Hge];
    [assumption|].
  rewrite (nth_overflow _ _ Hge) in Hnth. rewrite <- Hnth in Hv. discriminate.
Qed.

Lemma removeEmptyColumns_colHas t j :
  j < width (removeEmptyColumns t) -> colHas (removeEmptyColumns t) j = true.
Proof.
  rewrite removeEmptyColumns_rows. set (F := map (colHas t) (seq 0 (width t))).
  intros Hj. apply maxOf_lt in Hj as (x & Hx & Hj).
  rewrite map_map in Hx. apply in_map_iff in Hx as (r & <- & Hr).
  destruct (keepMarked_from (colHas t) r 0 (width t) j Hj (row_le_width _ _ Hr))
    as (i & _ & Hg & Hrank).
  simpl in Hg. apply colHas_true in Hg as (r2 & Hr2 & Hv).
  destruct (keepMarked_keeps_value t r2 i Hr2 Hv) as [Hnth _].
  rewrite Hrank in Hnth. apply colHas_true.
  exists (keepMarked r2 F). split.
  - apply in_map_iff. now exists r2.
  - unfold F. now rewrite Hnth.
Qed.

Lemma removeEmptyColumns_idempotent t :
  removeEmptyColumns (removeEmptyColumns t) = removeEmptyColumns t.
Proof.
  set (t' := removeEmptyColumns t).
  rewrite (removeEmptyColumns_rows t').
  transitivity (map (fun r => r) t'); [|apply map_id].
  apply map_ext_in. intros r' Hr'.
  replace (map (colHas t') (seq 0 (width t'))) with (repeat true (width t')).
  - apply keepMarked_all. now apply row_le_width.
  - rewrite (repeat_map_seq true 0). apply map_ext_in. intros j Hj.
    apply in_seq in Hj. symmetry. apply removeEmptyColumns_colHas.
    fold t'. lia.
Qed.

Lemma removeEmptyColumns_keeps_value t :
  Forall (fun r => rowHasAnyValue r = true) t ->
  Forall (fun r => rowHasAnyValue r = true) (removeEmptyColumns t).
Proof.
  intros H. rewrite removeEmptyColumns_rows. apply Forall_forall.
  intros r' Hr'. apply in_map_iff in Hr' as (r & <- & Hr).
  rewrite Forall_forall in H. specialize (H r Hr).
  apply existsb_exists in H as (c & Hc & Hv).
  destruct (In_nth r c "" Hc) as (i & Hi & <-).
  destruct (keepMarked_keeps_value t r i Hr Hv) as [Hnth Hlt].
  apply existsb_exists. eexists. split; [apply nth_In, Hlt|].
  now rewrite Hnth.
Qed.

Lemma removeEmptyColumns_cells t r' c :
  In r' (removeEmptyColumns t) -> In c r' -> exists r, In r t /\ In c r.
Proof.
  rewrite removeEmptyColumns_rows. intros Hr' Hc.
  apply in_map_iff in Hr' as (r & <- & Hr).
  exists r. split; [assumption|]. eapply keepMarked_In, Hc.
Qed.

(** ** Cleaning *)

Lemma filter_all {A} (f : A -> bool) l :
  Forall (fun x => f x = true) l -> filter f l = l.
Proof.
  induction 1 as [|x l Hx _ IH]; simpl; [reflexivity|]. now rewrite Hx, IH.
Qed.

Lemma filter_Forall {A} (f : A -> bool) l :
  Forall (fun x => f x = true) (filter f l).
Proof. apply Forall_forall. intros x Hx. now apply filter_In in Hx. Qed.

Lemma normalized_map b t :
  normalized b (map (fun r => map (fun c => normalizeCell c b) r) t).
Proof.
  intros r c Hr Hc. apply in_map_iff in Hr as (r0 & <- & _).
  apply in_map_iff in Hc as (c0 & <- & _). apply normalizeCell_idempotent.
Qed.

Lemma normalized_fixed b t :
  normalized b t -> map (fun r => map (fun c => normalizeCell c b) r) t = t.
Proof.
  intros H. transitivity (map (fun r => r) t); [|apply map_id].
  apply map_ext_in. intros r Hr.
  transitivity (map (fun c => c) r); [|apply map_id].
  apply map_ext_in. intros c Hc. now apply (H r).
Qed.

Lemma normalized_filter b f t : normalized b t -> normalized b (filter f t).
Proof. intros H r c Hr. apply filter_In in Hr as [Hr _]. now apply H. Qed.

Lemma normalized_removeEmptyColumns b t :
  normalized b t -> normalized b (removeEmptyColumns t).
Proof.
  intros H r' c Hr' Hc.
  destruct (removeEmptyColumns_cells _ _ _ Hr' Hc) as (r & Hr & Hcr).
  now apply (H r).
Qed.

Lemma applyCleaning_normalized o t :
  normalized (collapseSpacesOpt o) (applyCleaning o t).
Proof.
  unfold applyCleaning.
  pose proof (normalized_map (collapseSpacesOpt o) t) as H.
  destruct (removeEmptyRowsOpt o), (removeEmptyColsOpt o);
    auto using normalized_filter, normalized_removeEmptyColumns.
Qed.

(** A second cleaning with the same options changes nothing, whatever the
    options are. *)
Lemma applyCleaning_idempotent o t :
  applyCleaning o (applyCleaning o t) = applyCleaning o t.
Proof.
  pose proof (applyCleaning_normalized o t) as Hn.
  unfold applyCleaning at 1. rewrite (normalized_fixed _ _ Hn).
  unfold applyCleaning.
  set (u := map (fun r => map (fun c => normalizeCell c (collapseSpacesOpt o)) r) t).
  destruct (removeEmptyRowsOpt o), (removeEmptyColsOpt o).
  - rewrite (filter_all rowHasAnyValue)
      by apply removeEmptyColumns_keeps_value, filter_Forall.
    apply removeEmptyColumns_idempotent.
  - apply filter_all, filter_Forall.
  - apply removeEmptyColumns_idempotent.
  - reflexivity.
Qed.

(** ** The code against the wording of the specification *)

Lemma existsb_negb_forallb {A} (f : A -> bool) l :
  existsb (fun x => negb (f x)) l = negb (forallb f l).
Proof.
  induction l as [|x l IH]; simpl; [reflexivity|].
  rewrite IH. now destruct (f x).
Qed.

Lemma rowHasAnyValue_spec r : rowHasAnyValue r = negb (forallb Spec.blank r).
Proof. apply existsb_negb_forallb. Qed.

Lemma colHas_spec t j : colHas t j = negb (Spec.columnIsEmpty t j).
Proof.
  unfold colHas, Spec.columnIsEmpty.
  apply (existsb_negb_forallb (fun r => Spec.blank (nth j r ""))).
Qed.

Lemma removeEmptyRows_spec t : filter rowHasAnyValue t = Spec.dropEmptyRows t.
Proof. apply filter_ext. intros r. apply rowHasAnyValue_spec. Qed.

Lemma removeEmptyColumns_spec t : removeEmptyColumns t = Spec.dropEmptyColumns t.
Proof.
  rewrite removeEmptyColumns_rows. unfold Spec.dropEmptyColumns.
  apply map_ext_in. intros r Hr.
  rewrite keepMarked_spec by now apply row_le_width.
  f_equal. apply filter_ext. intros [j c]. apply colHas_spec.
Qed.

Lemma uniform_of_common_length n (t : table) :
  (forall r, In r t -> List.length r = n) -> uniform t.
Proof.
  intros H r Hr. rewrite (H r Hr).
  destruct t as [|r0 t]; [contradiction|]. symmetry. apply H. now left.
Qed.

Lemma removeEmptyColumns_common_length n t :
  (forall r, In r t -> List.length r = n) ->
  forall r', In r' (removeEmptyColumns t) ->
             List.length r' = rank (colHas t) 0 n.
Proof.
  intros H r'. rewrite removeEmptyColumns_rows. intros Hr'.
  apply in_map_iff in Hr' as (r & <- & Hr).
  rewrite keepMarked_length by now apply row_le_width.
  now rewrite (H r Hr).
Qed.

(** *** C2 *)

(** C2, as stated, fails: with [removeEmptyColumns] on, a ragged table whose
    columns all hold a value comes back as ragged as it was, because the
    cleaner only deletes cells and never pads. *)
Lemma clean_ragged_counterexample :
  removeEmptyColsOpt allOptions = true /\
  clean [["a"; "b"]; ["c"]] allOptions = [["a"; "b"]; ["c"]] /\
  ~ (clean [["a"; "b"]; ["c"]] allOptions = [] \/
     uniform (clean [["a"; "b"]; ["c"]] allOptions)).
Proof.
  split; [reflexivity|]. split; [reflexivity|].
  intros [H|H]; [discriminate H|].
  specialize (H ["c"] (or_intror (or_introl eq_refl))). discriminate H.
Qed.

(** C2, amended: when the rows of the input table all have the same length
    and [removeEmptyColumns] is on, the table returned by [clean] is empty
    or has every row of the length of its first row. *)
Theorem clean_uniform_on_uniform_input (t : table) (o : CleaningOptions) :
  removeEmptyColsOpt o = true ->
  uniform t ->
  clean t o = [] \/ uniform (clean t o).
Proof.
  intros Hcols Hu. right. unfold clean, applyCleaning. rewrite Hcols.
  set (n := List.length (hd [] t)).
  set (u := map (fun r => map (fun c => normalizeCell c (collapseSpacesOpt o)) r) t).
  assert (Hlen : forall r, In r u -> List.length r = n).
  { intros r Hr. apply in_map_iff in Hr as (r0 & <- & Hr0).
    rewrite length_map. now apply Hu. }
  eapply uniform_of_common_length, removeEmptyColumns_common_length.
  destruct (removeEmptyRowsOpt o); [|exact Hlen].
  intros r Hr. apply filter_In in Hr as [Hr _]. now apply Hlen.
Qed.

Lemma clean_uniform_on_uniform_input_witness :
  removeEmptyColsOpt allOptions = true /\
  uniform [["a"; ""; "b"]; [" "; ""; " "]; ["c"; " "; ""]] /\
  (clean [["a"; ""; "b"]; [" "; ""; " "]; ["c"; " "; ""]] allOptions = [] \/
   uniform (clean [["a"; ""; "b"]; [" "; ""; " "]; ["c"; " "; ""]] allOptions)).
Proof.
  assert (Hu : uniform [["a"; ""; "b"]; [" "; ""; " "]; ["c"; " "; ""]]).
  { intros r [<-|[<-|[<-|[]]]]; reflexivity. }
  split; [reflexivity|]. split; [exact Hu|].
  apply clean_uniform_on_uniform_input; [reflexivity|exact Hu].
Defined.

(** *** C7 *)

(** C7: [clean] normalizes every cell, then (if asked) deletes the rows
    whose cells are all blank, then (if asked) deletes the columns that are
    empty in the table left by the row pass; the table
    [[["a",""],["","x"]]] loses no row and no column. *)
Theorem clean_pass_order (t : table) (o : CleaningOptions) :
  clean t o =
    (if removeEmptyColsOpt o then Spec.dropEmptyColumns else fun u => u)
      ((if removeEmptyRowsOpt o then Spec.dropEmptyRows else fun u => u)
         (Spec.normalizeAll (collapseSpacesOpt o) t))
  /\
  (forall collapse,
      clean [["a"; ""]; [""; "x"]]
            {| collapseSpacesOpt := collapse; removeEmptyRowsOpt := true;
               removeEmptyColsOpt := true |}
      = [["a"; ""]; [""; "x"]]).
Proof.
  split.
  - unfold clean, applyCleaning, Spec.normalizeAll.
    destruct (removeEmptyRowsOpt o), (removeEmptyColsOpt o);
      now rewrite ?removeEmptyColumns_spec, ?removeEmptyRows_spec.
  - intros []; reflexivity.
Qed.

(** *** C8 *)

(** C8: with [removeEmptyRows] and [removeEmptyColumns] on, cleaning a
    cleaned table with the same options gives the cleaned table back. *)
Theorem clean_idempotent (t : table) (o : CleaningOptions) :
  removeEmptyRowsOpt o = true ->
  removeEmptyColsOpt o = true ->
  clean (clean t o) o = clean t o.
Proof. intros _ _. apply applyCleaning_idempotent. Qed.

Lemma clean_idempotent_witness :
  removeEmptyRowsOpt allOptions = true /\
  removeEmptyColsOpt allOptions = true /\
  clean (clean [["  a   b  "; ""; "c"]; [" "; ""]; ["d"; " "]] allOptions) allOptions
  = clean [["  a   b  "; ""; "c"]; [" "; ""]; ["d"; " "]] allOptions.
Proof.
  split; [reflexivity|]. split; [reflexivity|].
  apply clean_idempotent; reflexivity.
Defined.

(** ** Scoring: the map of counts *)

Lemma distinctFirst_In n l : In n (distinctFirst l) <-> In n l.
Proof.
  induction l as [|x l IH]; simpl; [tauto|].
  rewrite filter_In, IH, negb_true_iff, Nat.eqb_neq.
  destruct (Nat.eq_dec x n); intuition congruence.
Qed.

Lemma distinctFirst_NoDup l : NoDup (distinctFirst l).
Proof.
  induction l as [|x l IH]; simpl; constructor.
  - rewrite filter_In, negb_true_iff, Nat.eqb_neq. tauto.
  - now apply NoDup_filter.
Qed.

Lemma distinctFirst_snoc l n :
  distinctFirst (l ++ [n]) =
  if in_dec Nat.eq_dec n l then distinctFirst l else distinctFirst l ++ [n].
Proof.
  induction l as [|x l IH]; simpl; [reflexivity|].
  rewrite IH. destruct (Nat.eq_dec x n) as [->|Hx].
  - destruct (in_dec Nat.eq_dec n l); [reflexivity|].
    rewrite filter_app. simpl. rewrite Nat.eqb_refl. simpl.
    now rewrite app_nil_r.
  - destruct (in_dec Nat.eq_dec n l); [reflexivity|].
    rewrite filter_app. simpl.
    apply Nat.neq_sym, Nat.eqb_neq in Hx. now rewrite Hx.
Qed.

Section CountMap.

Variable g : nat -> nat.

Let entries (ks : list nat) : countMap := map (fun k => (k, g k)) ks.

Lemma mapGet_entries n ks :
  mapGet n (entries ks) = if in_dec Nat.eq_dec n ks then Some (g n) else None.
Proof.
  induction ks as [|k ks IH]; simpl; [reflexivity|].
  destruct (Nat.eqb_spec n k) as [->|Hn].
  - destruct (Nat.eq_dec k k); [|contradiction].
    reflexivity.
  - rewrite IH. destruct (Nat.eq_dec k n); [congruence|].
    destruct (in_dec Nat.eq_dec n ks); reflexivity.
Qed.

Lemma mapSet_entries_new n v ks :
  ~ In n ks -> mapSet n v (entries ks) = entries ks ++ [(n, v)].
Proof.
  induction ks as [|k ks IH]; simpl; intros H; [reflexivity|].
  destruct (Nat.eqb_spec n k) as [->|Hn]; [tauto|].
  rewrite IH by tauto. reflexivity.
Qed.

Lemma mapSet_entries_old n v ks :
  In n ks -> NoDup ks ->
  mapSet n v (entries ks) = map (fun k => (k, if k =? n then v else g k)) ks.
Proof.
  induction ks as [|k ks IH]; simpl; intros H Hnd; [contradiction|].
  apply NoDup_cons_iff in Hnd as [Hk Hnd].
  destruct (Nat.eqb_spec n k) as [->|Hn].
  - rewrite Nat.eqb_refl. f_equal. apply map_ext_in. intros k' Hk'.
    destruct (Nat.eqb_spec k' k); [congruence|reflexivity].
  - destruct (Nat.eqb_spec k n); [congruence|].
    rewrite IH; [reflexivity|tauto|assumption].
Qed.

End CountMap.

Lemma frequency_snoc k l n :
  Spec.frequency k (l ++ [n]) = Spec.frequency k l + (if k =? n then 1 else 0).
Proof.
  unfold Spec.frequency. rewrite count_occ_app. simpl.
  destruct (Nat.eq_dec n k) as [->|Hn].
  - now rewrite Nat.eqb_refl.
  - apply Nat.neq_sym, Nat.eqb_neq in Hn. now rewrite Hn.
Qed.

(** The map built by the counting loop: one entry per distinct length, in
    the order of first occurrence, with the number of its occurrences. *)
Lemma countLengths_spec l :
  countLengths l = map (fun k => (k, Spec.frequency k l)) (distinctFirst l).
Proof.
  unfold countLengths. induction l as [|n l IH] using rev_ind; [reflexivity|].
  rewrite fold_left_app. simpl. rewrite IH. unfold countStep.
  rewrite mapGet_entries, distinctFirst_snoc.
  pose proof (distinctFirst_In n l) as Hiff.
  destruct (in_dec Nat.eq_dec n (distinctFirst l)) as [Hin|Hout];
    destruct (in_dec Nat.eq_dec n l) as [Hin'|Hout']; try tauto.
  - rewrite mapSet_entries_old by auto using distinctFirst_NoDup.
    apply map_ext. intros k. rewrite frequency_snoc.
    destruct (Nat.eqb_spec k n) as [->|]; f_equal; lia.
  - rewrite mapSet_entries_new by assumption.
    rewrite map_app. simpl. f_equal.
    + apply map_ext_in. intros k Hk. rewrite frequency_snoc.
      destruct (Nat.eqb_spec k n) as [->|]; [contradiction|f_equal; lia].
    + rewrite frequency_snoc, Nat.eqb_refl.
      unfold Spec.frequency.
      rewrite (proj1 (count_occ_not_In Nat.eq_dec l n) Hout'). reflexivity.
Qed.

(** ** Scoring: the mode *)

(** What the loop over the entries returns: either nothing beat the count it
    started with, or the winner is the first entry whose count is the
    largest. *)
Lemma fold_modeStep entries b c :
  let st := fold_left modeStep entries (b, c) in
  (st = (b, c) /\ forall k f, In (k, f) entries -> f <= b) \/
  (exists e1 e2,
      entries = e1 ++ (snd st, fst st) :: e2 /\
      b < fst st /\
      (forall k f, In (k, f) e1 -> f < fst st) /\
      (forall k f, In (k, f) e2 -> f <= fst st)).
Proof.
  revert b c; induction entries as [|[k f] entries IH]; intros b c; simpl.
  - left. split; [reflexivity|]. intros ? ? [].
  - destruct (Nat.ltb_spec b f) as [Hlt|Hge].
    + right. destruct (IH f k) as [[Hst Hall]|(e1 & e2 & He & Hb & H1 & H2)].
      * exists [], entries. rewrite Hst. simpl. repeat split; auto.
        intros ? ? [].
      * exists ((k, f) :: e1), e2. rewrite He at 1. repeat split; auto; [lia|].
        intros k' f' [Heq|Hin]; [injection Heq as <- <-; lia|eauto].
    + destruct (IH b c) as [[Hst Hall]|(e1 & e2 & He & Hb & H1 & H2)].
      * left. split; [assumption|].
        intros k' f' [Heq|Hin]; [injection Heq as <- <-; lia|eauto].
      * right. exists ((k, f) :: e1), e2. rewrite He at 1. repeat split; auto.
        intros k' f' [Heq|Hin]; [injection Heq as <- <-; lia|eauto].
Qed.

Lemma filter_split {A} (f : A -> bool) l a m b :
  filter f l = a ++ m :: b ->
  exists a' b', l = a' ++ m :: b' /\ filter f a' = a.
Proof.
  revert a; induction l as [|x l IH]; intros a H; simpl in H.
  - destruct a; discriminate.
  - destruct (f x) eqn:Hx.
    + destruct a as [|y a]; simpl in H; injection H as <- H.
      * exists [], l. split; reflexivity.
      * destruct (IH _ H) as (a' & b' & -> & <-).
        exists (x :: a'), b'. simpl. now rewrite Hx.
    + destruct (IH _ H) as (a' & b' & -> & <-).
      exists (x :: a'), b'. simpl. now rewrite Hx.
Qed.

(** The values listed before [m] among the distinct values are the values
    met before the first occurrence of [m]. *)
Lemma distinctFirst_split l k1 m k2 :
  distinctFirst l = k1 ++ m :: k2 ->
  exists p q, l = p ++ m :: q /\ ~ In m p /\ (forall k, In k p -> In k k1).
Proof.
  revert k1 k2; induction l as [|x l IH]; intros k1 k2 H; simpl in H.
  - destruct k1; discriminate.
  - destruct k1 as [|y k1]; simpl in H; injection H as -> H.
    + exists [], l. repeat split; simpl; tauto.
    + assert (Hm : m <> y).
      { assert (Hin : In m (filter (fun z => negb (z =? y)) (distinctFirst l)))
          by (rewrite H; apply in_elt).
        apply filter_In in Hin as [_ Hin].
        now apply negb_true_iff, Nat.eqb_neq in Hin. }
      destruct (filter_split _ _ _ _ _ H) as (a' & b' & Hd & Hf).
      destruct (IH _ _ Hd) as (p & q & -> & Hp & Hsub).
      exists (y :: p), q. repeat split.
      * simpl. intros [Heq|Hin]; [congruence|contradiction].
      * intros k [<-|Hk]; [now left|].
        destruct (Nat.eq_dec k y) as [->|Hky]; [now left|]. right.
        rewrite <- Hf. apply filter_In. split; [now apply Hsub|].
        now apply negb_true_iff, Nat.eqb_neq.
Qed.

Lemma frequency_positive k l : In k l -> 0 < Spec.frequency k l.
Proof. apply count_occ_In. Qed.

(** The mode found by the code is the mode of the specification, and
    [bestCount] is the number of its occurrences. *)
Lemma findMode_spec l :
  l <> [] ->
  let st := findMode (countLengths l) in
  Spec.isMode (snd st) l /\ fst st = Spec.frequency (snd st) l.
Proof.
  intros Hne. unfold findMode. rewrite countLengths_spec.
  set (h := fun k => (k, Spec.frequency k l)).
  destruct (fold_modeStep (map h (distinctFirst l)) 0 0)
    as [[_ Hall]|(e1 & e2 & He & _ & H1 & H2)].
  - exfalso. destruct l as [|n l]; [congruence|].
    assert (Hin : In n (n :: l)) by now left.
    specialize (Hall n (Spec.frequency n (n :: l))
                     (in_map h _ _ (proj2 (distinctFirst_In _ _) Hin))).
    apply frequency_positive in Hin. lia.
  - set (st := fold_left modeStep (map h (distinctFirst l)) (0, 0)) in *.
    apply map_eq_app in He as (k1 & k2' & Hd & Hk1 & Hk2).
    apply map_eq_cons in Hk2 as (m & k2 & -> & Hm & Hk2).
    unfold h in Hm. injection Hm as Hm Hf. subst e1 e2.
    rewrite <- Hm, <- Hf in *. clear Hm Hf.
    destruct (distinctFirst_split _ _ _ _ Hd) as (p & q & Hl & Hp & Hsub).
    split; [|reflexivity].
    exists p, q. repeat split; [assumption|assumption| |].
    + intros k Hk. apply (H1 k). apply (in_map h), Hsub, Hk.
    + intros k Hk. apply distinctFirst_In in Hk. rewrite Hd in Hk.
      apply in_app_or in Hk as [Hk|[<-|Hk]].
      * apply Nat.lt_le_incl, (H1 k), (in_map h), Hk.
      * reflexivity.
      * apply (H2 k), (in_map h), Hk.
Qed.

(** The mode of a list is unique. *)
Lemma isMode_unique m m' l : Spec.isMode m l -> Spec.isMode m' l -> m = m'.
Proof.
  intros (p & q & Hl & Hp & Hlt & Hle) (p' & q' & Hl' & Hp' & Hlt' & Hle').
  destruct (Nat.eq_dec m m') as [|Hneq]; [assumption|exfalso].
  assert (Hm : In m l) by (rewrite Hl; apply in_elt).
  assert (Hm' : In m' l) by (rewrite Hl'; apply in_elt).
  assert (Hcase : In m p' \/ In m' p).
  { rewrite Hl' in Hl. clear - Hl Hneq.
    revert p Hl; induction p' as [|x p' IH]; intros p Hl.
    - destruct p as [|y p]; simpl in Hl; injection Hl as Hx Hl; [congruence|].
      right. now left.
    - destruct p as [|y p]; simpl in Hl; injection Hl as Hx Hl.
      + left. now left.
      + destruct (IH _ Hl) as [H|H]; [left|right]; now right. }
  destruct Hcase as [H|H].
  - specialize (Hlt' _ H). specialize (Hle _ Hm'). lia.
  - specialize (Hlt _ H). specialize (Hle' _ Hm). lia.
Qed.

(** ** Scoring: the score *)

Lemma rowLengthsOf_distribution t : rowLengthsOf t = Spec.distribution t.
Proof.
  unfold rowLengthsOf, Spec.distribution.
  induction t as [|r t IH]; simpl; [reflexivity|].
  destruct r; simpl; now rewrite IH.
Qed.

Lemma length_filter_differs m l :
  List.length (filter (fun n => negb (n =? m)) l) + Spec.frequency m l
  = List.length l.
Proof.
  unfold Spec.frequency. induction l as [|x l IH]; simpl; [reflexivity|].
  destruct (Nat.eq_dec x m) as [->|Hx].
  - rewrite Nat.eqb_refl. simpl. lia.
  - apply Nat.eqb_neq in Hx. rewrite Hx. simpl. lia.
Qed.

Lemma fold_left_sum (f : nat -> nat) l a :
  fold_left (fun sum n => sum + f n) l a = a + list_sum (map f l).
Proof.
  revert a; induction l as [|x l IH]; intros a; simpl; [lia|].
  rewrite IH. lia.
Qed.

Lemma scoreTable_unfold t :
  let l := rowLengthsOf t in
  scoreTable t =
  if (List.length l =? 0) || (maxOf l <=? 1) then Infinity
  else Finite ((List.length l - fst (findMode (countLengths l))) * 10
               + list_sum (map (fun n => absDiff n (snd (findMode (countLengths l)))) l)).
Proof.
  unfold scoreTable. cbv zeta.
  destruct (List.length (rowLengthsOf t) =? 0); [reflexivity|].
  destruct (maxOf (rowLengthsOf t) <=? 1); [reflexivity|]. simpl.
  destruct (findMode (countLengths (rowLengthsOf t))) as [bestCount modeCols].
  simpl. now rewrite fold_left_sum.
Qed.

(** *** C3 *)

(** C3: with the rows of zero cells left out of the distribution, the score
    is infinite exactly when the distribution is empty or its maximum is at
    most 1; otherwise it is 10 times the number of rows whose cell count
    differs from the mode plus the sum of the distances to the mode, the
    mode being the most frequent cell count, the first met among the most
    frequent ones. *)
Theorem scoreTable_spec (t : table) :
  let l := Spec.distribution t in
  (scoreTable t = Infinity <-> l = [] \/ maxOf l <= 1) /\
  (scoreTable t = Infinity \/
   exists m,
     Spec.isMode m l /\
     (forall m', Spec.isMode m' l -> m' = m) /\
     scoreTable t = Finite (Spec.consistency m l)).
Proof.
  cbv zeta. rewrite <- rowLengthsOf_distribution, scoreTable_unfold. cbv zeta.
  set (l := rowLengthsOf t).
  destruct (Nat.eqb_spec (List.length l) 0) as [Hz|Hz]; simpl.
  - split; [|now left]. split; [|reflexivity]. intros _. left.
    now apply length_zero_iff_nil.
  - assert (Hne : l <> []) by (intros ->; now apply Hz).
    destruct (Nat.leb_spec (maxOf l) 1) as [Hmax|Hmax].
    + split; [|now left]. split; [now right|reflexivity].
    + split.
      * split; [discriminate|]. intros [H|H]; [contradiction|lia].
      * right. destruct (findMode_spec l Hne) as [Hmode Hfreq].
        exists (snd (findMode (countLengths l))). split; [assumption|].
        split; [intros m' Hm'; eapply isMode_unique; eassumption|].
        f_equal. unfold Spec.consistency. rewrite Hfreq.
        pose proof (length_filter_differs (snd (findMode (countLengths l))) l).
        lia.
Qed.

(** ** Choosing among the candidates *)

Lemma score_ltb_trans a b c :
  score_ltb a b = true -> score_ltb b c = true -> score_ltb a c = true.
Proof.
  destruct a, b, c; simpl; try congruence.
  rewrite !Nat.ltb_lt. lia.
Qed.

Lemma score_ltb_below a b c :
  score_ltb a b = true -> score_ltb c b = false -> score_ltb a c = true.
Proof.
  destruct a, b, c; simpl; try congruence.
  rewrite !Nat.ltb_lt, Nat.ltb_ge. lia.
Qed.

Lemma score_ltb_Infinity s : score_ltb s Infinity = false <-> s = Infinity.
Proof. destruct s; simpl; split; congruence. Qed.

Section Choice.

Variable lines : list string.
Variable collapseSpaces : bool.

Let parse (c : candidate) : table :=
  parseRowsSimple lines (delim c) collapseSpaces.
Let scoreOf (c : candidate) : score := scoreTable (parse c).
Let chosen (c : candidate) : bestState :=
  {| best := parse c; bestDetected := name c; bestScore := scoreOf c |}.

(** The loop either keeps the state it started with, no candidate being
    strictly below its score, or ends on the first candidate of least
    score. *)
Lemma fold_chooseStep cands st :
  let st' := fold_left (chooseStep lines collapseSpaces) cands st in
  (st' = st /\
   Forall (fun c => score_ltb (scoreOf c) (bestScore st) = false) cands) \/
  (exists before c after,
      cands = before ++ c :: after /\
      st' = chosen c /\
      score_ltb (scoreOf c) (bestScore st) = true /\
      Forall (fun c' => score_ltb (scoreOf c) (scoreOf c') = true) before /\
      Forall (fun c' => score_ltb (scoreOf c') (scoreOf c) = false) after).
Proof.
  revert st; induction cands as [|c0 cands IH]; intros st; simpl.
  - left. split; [reflexivity|constructor].
  - assert (Hstep : chooseStep lines collapseSpaces st c0 =
                    if score_ltb (scoreOf c0) (bestScore st)
                    then chosen c0 else st) by reflexivity.
    rewrite Hstep. clear Hstep.
    destruct (score_ltb (scoreOf c0) (bestScore st)) eqn:Hlt.
    + right.
      destruct (IH (chosen c0))
        as [[Hst Hall]|(before & c & after & -> & Hst & Hc & Hb & Ha)].
      * exists [], c0, cands.
        split; [reflexivity|]. split; [exact Hst|]. split; [exact Hlt|].
        split; [constructor|exact Hall].
      * exists (c0 :: before), c, after. simpl in Hc.
        split; [reflexivity|]. split; [exact Hst|].
        split; [eapply score_ltb_trans; eassumption|].
        split; [constructor|]; assumption.
    + destruct (IH st)
        as [[Hst Hall]|(before & c & after & -> & Hst & Hc & Hb & Ha)].
      * left. split; [assumption|]. now constructor.
      * right. exists (c0 :: before), c, after.
        split; [reflexivity|]. split; [exact Hst|]. split; [exact Hc|].
        split; [constructor|]; try assumption.
        eapply score_ltb_below; eassumption.
Qed.

End Choice.

(** *** C4 *)

(** C4, as stated, fails: on the single line [hello] the four candidates
    tie, at the infinite score, and the earliest of them does not keep the
    win; neither the table nor the label of any candidate is returned. *)
Lemma all_infinite_tie_counterexample :
  Forall (fun c => scoreTable (parseRowsSimple ["hello"] (delim c) true) = Infinity)
         candidates /\
  chooseBestTableSimple ["hello"] true
  = {| parsedTable := []; detected := "auto" |} /\
  (forall c, In c candidates ->
     chooseBestTableSimple ["hello"] true
     <> {| parsedTable := parseRowsSimple ["hello"] (delim c) true;
           detected := name c |}).
Proof.
  split; [repeat constructor|]. split; [reflexivity|].
  intros c Hc. simpl in Hc.
  destruct Hc as [<-|[<-|[<-|[<-|[]]]]]; discriminate.
Qed.

(** C4, amended: the candidates are scanned in the order tabs, pipe,
    semicolon, spaces.  When at least one of them has a finite score, the
    candidate that is returned has a finite score strictly lower than every
    candidate scanned before it, and no candidate scanned after it has a
    strictly lower score, so that a tie keeps the earlier candidate.  When
    the four scores are infinite, no candidate is selected: the result is
    the empty table under the label [auto]. *)
Theorem chooseBestTableSimple_first_strict_minimum
    (lines : list string) (collapseSpaces : bool) :
  let parse c := parseRowsSimple lines (delim c) collapseSpaces in
  let scoreOf c := scoreTable (parse c) in
  let result := chooseBestTableSimple lines collapseSpaces in
  map name candidates = ["tabs"; "pipe"; "semicolon"; "spaces"] /\
  ((exists c, In c candidates /\ scoreOf c <> Infinity) ->
   exists before c after,
     candidates = before ++ c :: after /\
     result = {| parsedTable := parse c; detected := name c |} /\
     scoreOf c <> Infinity /\
     Forall (fun c' => score_ltb (scoreOf c) (scoreOf c') = true) before /\
     Forall (fun c' => score_ltb (scoreOf c') (scoreOf c) = false) after) /\
  (Forall (fun c => scoreOf c = Infinity) candidates ->
   result = {| parsedTable := []; detected := "auto" |}).
Proof.
  cbv zeta. split; [reflexivity|].
  unfold chooseBestTableSimple, chooseAmong.
  destruct (fold_chooseStep lines collapseSpaces candidates initialBest)
    as [[-> Hall]|(before & c & after & Hc & -> & Hlt & Hb & Ha)].
  - split; [|reflexivity].
    intros (c & Hin & Hfin). exfalso. apply Hfin.
    rewrite Forall_forall in Hall. now apply score_ltb_Infinity, Hall.
  - assert (Hfin : scoreTable (parseRowsSimple lines (delim c) collapseSpaces)
                   <> Infinity)
      by (intros Hinf; rewrite Hinf in Hlt; discriminate).
    split.
    + intros _. exists before, c, after. repeat split; auto.
    + intros Hall. exfalso. apply Hfin.
      rewrite Forall_forall in Hall. apply Hall. rewrite Hc. apply in_elt.
Qed.

Lemma chooseBestTableSimple_first_strict_minimum_witness :
  (exists c, In c candidates /\
             scoreTable (parseRowsSimple ["a|b;c"; "d|e;f"; "g|h"] (delim c) true)
             <> Infinity) /\
  exists before c after,
    candidates = before ++ c :: after /\
    chooseBestTableSimple ["a|b;c"; "d|e;f"; "g|h"] true
    = {| parsedTable := parseRowsSimple ["a|b;c"; "d|e;f"; "g|h"] (delim c) true;
         detected := name c |} /\
    scoreTable (parseRowsSimple ["a|b;c"; "d|e;f"; "g|h"] (delim c) true)
    <> Infinity /\
    Forall (fun c' =>
              score_ltb
                (scoreTable (parseRowsSimple ["a|b;c"; "d|e;f"; "g|h"] (delim c) true))
                (scoreTable (parseRowsSimple ["a|b;c"; "d|e;f"; "g|h"] (delim c') true))
              = true) before /\
    Forall (fun c' =>
              score_ltb
                (scoreTable (parseRowsSimple ["a|b;c"; "d|e;f"; "g|h"] (delim c') true))
                (scoreTable (parseRowsSimple ["a|b;c"; "d|e;f"; "g|h"] (delim c) true))
              = false) after.
Proof.
  assert (H : exists c, In c candidates /\
             scoreTable (parseRowsSimple ["a|b;c"; "d|e;f"; "g|h"] (delim c) true)
             <> Infinity).
  { exists pipeCandidate. split; [right; left; reflexivity|discriminate]. }
  split; [exact H|].
  exact (proj1 (proj2 (chooseBestTableSimple_first_strict_minimum
                         ["a|b;c"; "d|e;f"; "g|h"] true)) H).
Defined.

(** ** The score does not look at the cells *)

Lemma rowLengthsOf_parseRowsSimple lines d b b' :
  rowLengthsOf (parseRowsSimple lines d b) =
  rowLengthsOf (parseRowsSimple lines d b').
Proof.
  unfold rowLengthsOf, parseRowsSimple. f_equal.
  rewrite !map_map. apply map_ext. intros line. now rewrite !length_map.
Qed.

Lemma scoreTable_parseRowsSimple lines d b b' :
  scoreTable (parseRowsSimple lines d b) = scoreTable (parseRowsSimple lines d b').
Proof.
  rewrite !scoreTable_unfold. cbv zeta.
  now rewrite (rowLengthsOf_parseRowsSimple lines d b b').
Qed.

Lemma chooseStep_label lines b b' st st' c :
  bestDetected st = bestDetected st' -> bestScore st = bestScore st' ->
  bestDetected (chooseStep lines b st c) = bestDetected (chooseStep lines b' st' c) /\
  bestScore (chooseStep lines b st c) = bestScore (chooseStep lines b' st' c).
Proof.
  intros Hd Hs. unfold chooseStep.
  rewrite (scoreTable_parseRowsSimple lines (delim c) b b'), Hs.
  destruct (score_ltb _ (bestScore st')); simpl; auto.
Qed.

Lemma fold_chooseStep_label lines b b' cands st st' :
  bestDetected st = bestDetected st' -> bestScore st = bestScore st' ->
  bestDetected (fold_left (chooseStep lines b) cands st) =
  bestDetected (fold_left (chooseStep lines b') cands st').
Proof.
  revert st st'; induction cands as [|c cands IH]; intros st st' Hd Hs; simpl;
    [assumption|].
  destruct (chooseStep_label lines b b' st st' c Hd Hs). now apply IH.
Qed.

(** *** C10 *)

(** C10: the score of every candidate and the label that auto-detection
    returns are the same with [collapseSpaces] on and off. *)
Theorem detection_independent_of_collapseSpaces (lines : list string) :
  Forall (fun c =>
            scoreTable (parseRowsSimple lines (delim c) true) =
            scoreTable (parseRowsSimple lines (delim c) false))
         candidates /\
  detected (chooseBestTableSimple lines true) =
  detected (chooseBestTableSimple lines false).
Proof.
  split.
  - apply Forall_forall. intros c _. apply scoreTable_parseRowsSimple.
  - exact (fold_chooseStep_label lines true false candidates
             initialBest initialBest eq_refl eq_refl).
Qed.

(** ** Lines without a delimiter *)

Lemma splitFrom_no_occurrence sep s :
  JS.includes sep s = false -> JS.splitFrom sep 0 s = [s].
Proof.
  induction s as [|c s IH]; cbn [JS.includes JS.splitFrom]; [reflexivity|].
  intros H. apply orb_false_elim in H as [Hp Hi].
  rewrite Hp, (IH Hi). reflexivity.
Qed.

Lemma splitSpaces_no_run s :
  JS.includes "  " s = false ->
  JS.splitSpacesFrom 0 s = [s] /\
  (prefix " " s = false -> JS.splitSpacesFrom 1 s = [String SPACE s]).
Proof.
  induction s as [|c s IH]; [split; reflexivity|].
  cbn [JS.includes]. intros H. apply orb_false_elim in H as [Hp Hi].
  destruct (IH Hi) as [IH0 IH1]. cbn [JS.splitSpacesFrom].
  destruct (Ascii.eqb_spec c SPACE) as [->|Hc].
  - split.
    + rewrite IH1; [reflexivity|exact Hp].
    + intros Hs. exfalso. clear - Hs.
      change (prefix "" s = false) in Hs. destruct s; discriminate.
  - rewrite IH0. split; reflexivity.
Qed.

Lemma splitLine_no_signal line d :
  Spec.noSignal line = true -> In d (map delim candidates) ->
  splitLine line d = [line].
Proof.
  unfold Spec.noSignal. intros H.
  apply andb_prop in H as [H Hsp]. apply andb_prop in H as [H Hpipe].
  apply andb_prop in H as [Htab Hsemi].
  apply negb_true_iff in Htab, Hsemi, Hpipe, Hsp.
  simpl. intros [<-|[<-|[<-|[<-|[]]]]]; unfold splitLine, JS.split.
  - now apply splitFrom_no_occurrence.
  - now apply splitFrom_no_occurrence.
  - now apply splitFrom_no_occurrence.
  - rewrite Htab, Hsemi, Hpipe. now apply splitSpaces_no_run.
Qed.

Lemma maxOf_le n l : (forall x, In x l -> x <= n) -> maxOf l <= n.
Proof.
  induction l as [|y l IH]; simpl; intros H; [lia|].
  specialize (H y (or_introl eq_refl)) as Hy.
  specialize (IH (fun x Hx => H x (or_intror Hx))). lia.
Qed.

Lemma scoreTable_single_cells t :
  (forall r, In r t -> List.length r <= 1) -> scoreTable t = Infinity.
Proof.
  intros H. rewrite scoreTable_unfold. cbv zeta.
  assert (Hmax : maxOf (rowLengthsOf t) <= 1).
  { apply maxOf_le. intros x Hx. apply filter_In in Hx as [Hx _].
    apply in_map_iff in Hx as (r & <- & Hr). now apply H. }
  apply Nat.leb_le in Hmax. now rewrite Hmax, orb_true_r.
Qed.

Lemma fold_chooseStep_none lines b cands st :
  Forall (fun c => scoreTable (parseRowsSimple lines (delim c) b) = Infinity)
         cands ->
  fold_left (chooseStep lines b) cands st = st.
Proof.
  intros H. revert st; induction H as [|c cands Hc _ IH]; intros st;
    [reflexivity|].
  simpl. unfold chooseStep at 2. rewrite Hc. simpl. apply IH.
Qed.

(** *** C6 *)

(** C6, as stated, fails: for the single line [hello], which holds no
    delimiter signal, auto-detection does not return the one-cell row of
    the whitespace-run split but the empty table, under the label [auto]. *)
Lemma no_signal_counterexample :
  Spec.noSignal "hello" = true /\
  parseRowsSimple ["hello"] None true = [["hello"]] /\
  chooseBestTableSimple ["hello"] true
  = {| parsedTable := []; detected := "auto" |} /\
  parsedTable (chooseBestTableSimple ["hello"] true)
  <> parseRowsSimple ["hello"] None true.
Proof. repeat split; try reflexivity. discriminate. Qed.

(** C6, amended: when no line holds a delimiter signal, every candidate
    scores infinite, none is selected, and auto-detection returns the empty
    table under the label [auto]; the caller's test for a table with a row
    of more than one cell fails on it. *)
Theorem no_signal_detects_nothing (lines : list string) (collapseSpaces : bool) :
  Forall (fun line => Spec.noSignal line = true) lines ->
  Forall (fun c =>
            scoreTable (parseRowsSimple lines (delim c) collapseSpaces) = Infinity)
         candidates /\
  chooseBestTableSimple lines collapseSpaces
  = {| parsedTable := []; detected := "auto" |} /\
  hasTable (parsedTable (chooseBestTableSimple lines collapseSpaces)) = false.
Proof.
  intros Hlines.
  assert (Hall : Forall (fun c =>
            scoreTable (parseRowsSimple lines (delim c) collapseSpaces) = Infinity)
         candidates).
  { apply Forall_forall. intros c Hc. apply scoreTable_single_cells.
    intros r Hr. apply in_map_iff in Hr as (line & <- & Hline).
    rewrite Forall_forall in Hlines.
    rewrite (splitLine_no_signal line (delim c) (Hlines _ Hline))
      by now apply in_map.
    simpl. lia. }
  split; [exact Hall|].
  unfold chooseBestTableSimple, chooseAmong.
  rewrite (fold_chooseStep_none _ _ _ _ Hall). split; reflexivity.
Qed.

Lemma no_signal_detects_nothing_witness :
  Forall (fun line => Spec.noSignal line = true) ["hello world"; "a,b c"] /\
  chooseBestTableSimple ["hello world"; "a,b c"] false
  = {| parsedTable := []; detected := "auto" |}.
Proof.
  assert (H : Forall (fun line => Spec.noSignal line = true)
                     ["hello world"; "a,b c"])
    by (repeat constructor).
  split; [exact H|].
  exact (proj1 (proj2 (no_signal_detects_nothing _ false H))).
Defined.

(** ** How each candidate splits a line *)

Lemma splitLine_null line : splitLine line None = Spec.singleDelimiterLineRule line.
Proof.
  unfold splitLine, Spec.singleDelimiterLineRule, Spec.signalPriority.
  cbn [find].
  destruct (JS.includes (String TAB "") line); [reflexivity|].
  destruct (JS.includes ";" line); [reflexivity|].
  destruct (JS.includes "|" line); reflexivity.
Qed.

(** *** C1 *)

(** C1, as stated, fails: in the pass of the candidate [pipe] the line
    [a;b|c] is split on the pipe, although the single-delimiter-line rule
    finds the semicolon first. *)
Lemma candidate_split_counterexample :
  In pipeCandidate candidates /\
  splitLine "a;b|c" (delim pipeCandidate) = ["a;b"; "c"] /\
  Spec.singleDelimiterLineRule "a;b|c" = ["a"; "b|c"] /\
  splitLine "a;b|c" (delim pipeCandidate) <> Spec.singleDelimiterLineRule "a;b|c".
Proof.
  split; [right; left; reflexivity|].
  repeat split; try reflexivity. discriminate.
Qed.

(** C1, amended: in the passes of the candidates tabs, pipe and semicolon
    every line is split on the literal delimiter of the candidate, whatever
    other signal the line holds; only in the pass of the candidate spaces,
    whose delimiter is null, is every line split by the
    single-delimiter-line rule. *)
Theorem candidate_split_rule (c : candidate) (line : string) :
  In c candidates ->
  splitLine line (delim c) =
    match Spec.literalOf (name c) with
    | Some d => JS.split line d
    | None => Spec.singleDelimiterLineRule line
    end
  /\ (Spec.literalOf (name c) = None <-> name c = "spaces").
Proof.
  simpl. intros [<-|[<-|[<-|[<-|[]]]]]; simpl.
  - split; [reflexivity|]. split; discriminate.
  - split; [reflexivity|]. split; discriminate.
  - split; [reflexivity|]. split; discriminate.
  - split; [apply splitLine_null|]. split; reflexivity.
Qed.

Lemma candidate_split_rule_witness :
  In spacesCandidate candidates /\
  splitLine "a;b|c" (delim spacesCandidate) = Spec.singleDelimiterLineRule "a;b|c" /\
  In pipeCandidate candidates /\
  splitLine "a;b|c" (delim pipeCandidate) = JS.split "a;b|c" "|".
Proof.
  assert (Hs : In spacesCandidate candidates)
    by (right; right; right; left; reflexivity).
  assert (Hp : In pipeCandidate candidates) by (right; left; reflexivity).
  split; [exact Hs|]. split; [exact (proj1 (candidate_split_rule _ "a;b|c" Hs))|].
  split; [exact Hp|]. exact (proj1 (candidate_split_rule _ "a;b|c" Hp)).
Defined.

(** *** C5 *)

(** C5, as stated, fails on the label only: the label built for the
    delimiter [,] is [custom (,)], with a space before the parenthesis. *)
Lemma explicit_delimiter_label_counterexample :
  detected (infer ["a,b"; "c,d"] "," false) = "custom (,)" /\
  detected (infer ["a,b"; "c,d"] "," false) <> "custom(,)".
Proof. split; [reflexivity|discriminate]. Qed.

(** C5, amended: a non-empty explicit delimiter [d] bypasses the scoring;
    every line is split on the literal occurrences of [d] (joining the
    pieces with [d] gives the line back and no piece holds [d]) and the
    label is [custom (<d>)]. *)
Theorem infer_explicit_delimiter
    (lines : list string) (d : string) (collapseSpaces : bool) :
  d <> "" ->
  infer lines d collapseSpaces =
    {| parsedTable :=
         map (fun line => map (fun c => normalizeCell c collapseSpaces)
                              (JS.split line d)) lines;
       detected := ("custom (" ++ d ++ ")")%string |}
  /\ (forall line,
         JS.join d (JS.split line d) = line /\
         Forall (fun p => JS.includes d p = false) (JS.split line d)).
Proof.
  intros Hd. split.
  - destruct d as [|a d]; [contradiction|]. reflexivity.
  - intros line. split; [now apply split_join|now apply splitFrom_pieces].
Qed.

Lemma infer_explicit_delimiter_witness :
  "," <> "" /\
  infer ["a,b"; "c,d"] "," false =
    {| parsedTable := [["a"; "b"]; ["c"; "d"]]; detected := "custom (,)" |}.
Proof.
  assert (H : "," <> "") by discriminate.
  split; [exact H|].
  exact (proj1 (infer_explicit_delimiter ["a,b"; "c,d"] "," false H)).
Defined.

(** ** Markdown *)

Lemma escapePipes_escaped prev s :
  pipesEscapedFrom prev (JS.escapePipes s) = true.
Proof.
  revert prev; induction s as [|c s IH]; intros prev; [reflexivity|].
  cbn [JS.escapePipes]. destruct (Ascii.eqb c PIPE) eqn:Hc.
  - simpl. apply IH.
  - cbn [pipesEscapedFrom]. rewrite Hc. apply IH.
Qed.

Lemma escapePipes_occurs a s :
  Ascii.eqb a PIPE = false -> Ascii.eqb a BACKSLASH = false ->
  occurs a (JS.escapePipes s) = occurs a s.
Proof.
  intros Hp Hb. induction s as [|c s IH]; [reflexivity|].
  cbn [JS.escapePipes]. destruct (Ascii.eqb_spec c PIPE) as [->|Hc].
  - cbn [occurs]. rewrite IH.
    rewrite (Ascii.eqb_sym BACKSLASH a), (Ascii.eqb_sym PIPE a), Hp, Hb.
    reflexivity.
  - cbn [occurs]. now rewrite IH.
Qed.

Lemma replaceNewlines_no_LF s : occurs LF (JS.replaceNewlines s) = false.
Proof.
  assert (H : forall n s, String.length s <= n ->
                          occurs LF (JS.replaceNewlines s) = false).
  { clear s. induction n as [|n IH]; intros [|c s] Hlen; simpl in Hlen;
      try reflexivity; try lia.
    assert (Hs : occurs LF (JS.replaceNewlines s) = false) by (apply IH; lia).
    cbn [JS.replaceNewlines].
    destruct (Ascii.eqb c LF) eqn:Hc; [exact Hs|].
    destruct (Ascii.eqb c CR) eqn:Hr.
    - destruct s as [|c' s]; [cbn [occurs]; now rewrite Hc|].
      destruct (Ascii.eqb c' LF) eqn:Hc'.
      + change (occurs LF (JS.replaceNewlines s) = false).
        apply IH. simpl in Hlen. lia.
      + cbn [occurs]. rewrite Hc. exact Hs.
    - cbn [occurs]. rewrite Hc. exact Hs. }
  now apply (H (String.length s)).
Qed.

Lemma escapeMarkdownCell_no_LF s : occurs LF (escapeMarkdownCell s) = false.
Proof.
  unfold escapeMarkdownCell.
  rewrite escapePipes_occurs by reflexivity. apply replaceNewlines_no_LF.
Qed.

Lemma padRow_nil w : padRow w [] = repeat "" w.
Proof.
  unfold padRow. rewrite (repeat_map_seq "" 0). apply map_ext.
  intros [|i]; reflexivity.
Qed.

Lemma padRow_cons w c r : padRow (S w) (c :: r) = c :: padRow w r.
Proof.
  unfold padRow. cbn [seq map nth]. f_equal.
  rewrite <- seq_shift, map_map. reflexivity.
Qed.

(** Padding a row is appending empty strings up to the width. *)
Lemma padRow_spec w r :
  List.length r <= w -> padRow w r = r ++ repeat "" (w - List.length r).
Proof.
  revert w; induction r as [|c r IH]; intros w H.
  - rewrite padRow_nil. simpl. now rewrite Nat.sub_0_r.
  - destruct w as [|w]; simpl in H; [lia|].
    rewrite padRow_cons, IH by lia. reflexivity.
Qed.

Lemma padRow_length w r : List.length (padRow w r) = w.
Proof. unfold padRow. now rewrite length_map, length_seq. Qed.

Lemma map_const_repeat {A B} (b : B) (l : list A) :
  map (fun _ => b) l = repeat b (List.length l).
Proof. induction l; simpl; congruence. Qed.

Lemma string_app_assoc (a b c : string) :
  ((a ++ b) ++ c)%string = (a ++ (b ++ c))%string.
Proof. induction a as [|x a IH]; simpl; [reflexivity|now rewrite IH]. Qed.

(** The two replacements of the code, one after the other, are the escape
    of the specification. *)
Lemma escapeMarkdownCell_escapeCell s : escapeMarkdownCell s = Spec.escapeCell s.
Proof.
  unfold escapeMarkdownCell.
  assert (H : forall n u, String.length u <= n ->
                JS.escapePipes (JS.replaceNewlines u) = Spec.escapeCell u).
  { clear s. induction n as [|n IH]; intros [|c u] Hlen; simpl in Hlen;
      try reflexivity; try lia.
    assert (Hu : JS.escapePipes (JS.replaceNewlines u) = Spec.escapeCell u)
      by (apply IH; lia).
    cbn [JS.replaceNewlines Spec.escapeCell].
    destruct (Ascii.eqb_spec c LF) as [->|HLF].
    { cbn [JS.escapePipes]. change (Ascii.eqb SPACE PIPE) with false.
      cbv iota. now rewrite Hu. }
    destruct (Ascii.eqb_spec c PIPE) as [->|HP].
    { change (Ascii.eqb PIPE CR) with false. cbv iota.
      cbn [JS.escapePipes]. rewrite Ascii.eqb_refl. now rewrite Hu. }
    apply Ascii.eqb_neq in HP.
    destruct (Ascii.eqb_spec c CR) as [->|HCR].
    - destruct u as [|c' u']; [reflexivity|].
      destruct (Ascii.eqb_spec c' LF) as [->|HLF'].
      + cbn [JS.escapePipes andb]. change (Ascii.eqb SPACE PIPE) with false.
        cbv iota. f_equal. apply IH. simpl in Hlen. lia.
      + cbn [JS.escapePipes andb]. change (Ascii.eqb CR PIPE) with false.
        cbv iota. now rewrite Hu.
    - cbn [JS.escapePipes andb]. rewrite HP.
      destruct u as [|c' u']; [reflexivity|]. now rewrite Hu. }
  now apply (H (String.length s)).
Qed.

Lemma fold_cells_join (c : string) (cells : row) :
  fold_right (fun c rest => " " ++ c ++ " |" ++ rest)%string "" (c :: cells)
  = (" " ++ JS.join " | " (c :: cells) ++ " |")%string.
Proof.
  revert c; induction cells as [|c2 cells IH]; intros c; [reflexivity|].
  change (JS.join " | " (c :: c2 :: cells))
    with (c ++ " | " ++ JS.join " | " (c2 :: cells))%string.
  cbn [fold_right]. cbn [fold_right] in IH. rewrite IH, string_app_assoc.
  reflexivity.
Qed.

(** The template of the code writes the line of the specification. *)
Lemma markdownLine_rowLine cells : markdownLine cells = Spec.rowLine cells.
Proof.
  destruct cells as [|c cells]; [reflexivity|].
  unfold markdownLine, Spec.rowLine. now rewrite fold_cells_join.
Qed.

Lemma join_textOfLines lines :
  JS.join (String LF "") lines = Spec.textOfLines lines.
Proof.
  destruct lines as [|l lines]; [reflexivity|]. unfold Spec.textOfLines.
  revert l; induction lines as [|l2 lines IH]; intros l.
  - simpl. clear. induction l; simpl; congruence.
  - change (JS.join (String LF "") (l :: l2 :: lines))
      with (l ++ String LF (JS.join (String LF "") (l2 :: lines)))%string.
    now rewrite IH.
Qed.

(** *** C9 *)

(** C9: for a table with a header row, the Markdown text is made of one
    line per row, every row being padded with empty strings to the largest
    row length and rendered as [| c1 | c2 | ... |], with the separator line
    of one [---] per column right after the header; in a cell every line
    break becomes one space, so that no line feed is left, and every pipe
    gets a backslash before it.  The table [[["H1","H2"],["v|1","v2"]]]
    gives the three lines of the specification. *)
Theorem toMarkdownTable_spec (header : row) (body : table) :
  let data := header :: body in
  let w := width data in
  serializeMarkdown data =
    Spec.textOfLines
      (Spec.markdownRow w header :: Spec.markdownSeparator w
         :: map (Spec.markdownRow w) body)
  /\ (forall cell,
         escapeMarkdownCell cell = Spec.escapeCell cell /\
         occurs LF (escapeMarkdownCell cell) = false /\
         pipesEscapedFrom false (escapeMarkdownCell cell) = true)
  /\ serializeMarkdown [["H1"; "H2"]; ["v|1"; "v2"]] =
       ("| H1 | H2 |" ++ String LF ("| --- | --- |" ++ String LF "| v\|1 | v2 |"))%string.
Proof.
  cbv zeta. split; [|split].
  - unfold serializeMarkdown, toMarkdownTable. fold (width (header :: body)).
    set (w := width (header :: body)).
    assert (Hrow : forall r, In r (header :: body) ->
              markdownLine (map escapeMarkdownCell (padRow w r)) = Spec.markdownRow w r).
    { intros r Hr. unfold Spec.markdownRow, Spec.padTo.
      rewrite markdownLine_rowLine, padRow_spec by now apply row_le_width.
      f_equal. apply map_ext. apply escapeMarkdownCell_escapeCell. }
    rewrite join_textOfLines.
    cbn [map hd tl]. f_equal. f_equal; [apply Hrow; now left|]. f_equal.
    + unfold Spec.markdownSeparator.
      now rewrite markdownLine_rowLine, map_const_repeat, length_map, padRow_length.
    + rewrite map_map. apply map_ext_in. intros r Hr. apply Hrow. now right.
  - intros cell. split; [apply escapeMarkdownCell_escapeCell|].
    split; [apply escapeMarkdownCell_no_LF|]. apply escapePipes_escaped.
  - reflexivity.
Qed.

(** ** The examples of the specification, run on the code *)

Example pipe_wins :
  infer ["Name | Age"; "Alice | 24"; "Bob | 30"] "" true =
  {| parsedTable := [["Name"; "Age"]; ["Alice"; "24"]; ["Bob"; "30"]];
     detected := "pipe" |}.
Proof. reflexivity. Qed.

Example empty_row_removal :
  clean [["a"; "b"]; [""; ""]; ["c"; "d"]] allOptions = [["a"; "b"]; ["c"; "d"]].
Proof. reflexivity. Qed.

Example whitespace_toggle :
  normalizeCell "  a   b  " false = "  a   b  " /\
  normalizeCell "  a   b  " true = "a b".
Proof. split; reflexivity. Qed.

Example tie_keeps_the_earlier_candidate :
  scoreTable (parseRowsSimple ["a|b;c"; "d|e;f"; "g|h"] (Some "|") true) = Finite 0 /\
  scoreTable (parseRowsSimple ["a|b;c"; "d|e;f"; "g|h"] None true) = Finite 0 /\
  chooseBestTableSimple ["a|b;c"; "d|e;f"; "g|h"] true
  = {| parsedTable := [["a"; "b;c"]; ["d"; "e;f"]; ["g"; "h"]];
       detected := "pipe" |}.
Proof. repeat split; reflexivity. Qed.

Example line_of_three_cells :
  Spec.rowLine ["a"; ""; "c"] = "| a |  | c |" /\
  Spec.textOfLines ["x"; "y"; "z"] = String "x" (String LF (String "y" (String LF "z"))).
Proof. split; reflexivity. Qed.

Example split_is_literal :
  JS.split "a.b" "." = ["a"; "b"] /\ JS.split "axb" "." = ["axb"] /\
  JS.split "aaa" "aa" = [""; "a"] /\ JS.split "" "," = [""].
Proof. repeat split; reflexivity. Qed.

Example split_on_space_runs :
  JS.splitSpaces "  a b   c d  " = [""; "a b"; "c d"; ""].
Proof. reflexivity. Qed.

Example runs_are_taken_whole :
  SplitOnSpaceRuns "a   b c" ["a"; "b c"] /\
  ~ SplitOnSpaceRuns "a   b c" ["a "; "b c"].
Proof.
  split.
  - apply (split_run "a" 3 "b c" ["b c"]); try reflexivity; [lia|].
    now apply split_last.
  - intros H. inversion H as [|c k rest cells Hc He Hk Hs Hrest Heq]; subst.
    discriminate He.
Qed.

Example score_with_a_tie_of_modes :
  scoreTable [["a"; "b"]; []; ["c"; "d"; "e"]; ["f"; "g"; "h"]; ["i"; "j"]]
  = Finite 22.
Proof. reflexivity. Qed.

Example line_breaks_in_a_cell :
  escapeMarkdownCell (String "a" (String CR (String LF (String "b" (String LF "|")))))
  = "a b \|" /\
  escapeMarkdownCell (String "a" (String LF (String LF "b"))) = "a  b".
Proof. split; reflexivity. Qed.

(** * Further properties of the code *)

(** ** Cells after the collapse of white space *)

Lemma prefix_cons a p c s :
  prefix (String a p) (String c s) = if ascii_dec a c then prefix p s else false.
Proof. reflexivity. Qed.

Lemma tidyFrom_no_double_space b s :
  tidyFrom b s = true -> JS.includes "  " s = false.
Proof.
  revert b; induction s as [|c s IH]; intros b H; [reflexivity|].
  cbn [JS.includes]. cbn [tidyFrom] in H. rewrite prefix_cons.
  destruct (isWhitespace c) eqn:Hc.
  - apply andb_prop in H as [_ H]. rewrite (IH _ H), orb_false_r.
    destruct (ascii_dec " " c); [|reflexivity].
    destruct s as [|c' s]; [reflexivity|]. rewrite prefix_cons.
    destruct (ascii_dec " " c') as [<-|]; [|reflexivity].
    simpl in H. discriminate.
  - rewrite (IH _ H), orb_false_r.
    destruct (ascii_dec " " c) as [<-|]; [discriminate|reflexivity].
Qed.

Lemma tidyFrom_only_spaces b s a :
  tidyFrom b s = true -> occurs a s = true -> isWhitespace a = true -> a = SPACE.
Proof.
  revert b; induction s as [|c s IH]; intros b H Ho Ha; [discriminate|].
  cbn [tidyFrom] in H. cbn [occurs] in Ho.
  destruct (Ascii.eqb_spec c a) as [->|Hne].
  - rewrite Ha in H. apply andb_prop in H as [H _].
    apply andb_prop in H as [_ H]. now apply Ascii.eqb_eq.
  - simpl in Ho. destruct (isWhitespace c).
    + apply andb_prop in H as [_ H]. eauto.
    + eauto.
Qed.

Lemma normalizeCell_true_cases c :
  normalizeCell c true = "" \/ tidyFrom true (normalizeCell c true) = true.
Proof.
  unfold normalizeCell, JS.collapseWhitespace, JS.trim. simpl negb. cbv iota.
  set (y := JS.trimEnd (JS.trimStart c)).
  assert (Hfix : JS.trimEnd y = y) by apply trimEnd_idempotent.
  assert (Hst : startsClean y = true)
    by apply trimEnd_startsClean, trimStart_startsClean.
  destruct (collapse_tidy y Hfix) as (_ & _ & H3).
  destruct y as [|a y'] eqn:Hy; [now left|right].
  apply H3; [discriminate|assumption].
Qed.

(** X1: With [collapseSpaces] on, a normalized cell is trimmed, is left alone by
    a second collapse, holds no two spaces in a row, and its only white
    space is the SPACE character. *)
Theorem normalizeCell_collapsed (c : string) :
  let s := normalizeCell c true in
  JS.trim s = s /\
  JS.collapseWhitespace s = s /\
  JS.includes "  " s = false /\
  (forall a, occurs a s = true -> isWhitespace a = true -> a = SPACE).
Proof.
  cbv zeta. destruct (normalizeCell_true_cases c) as [->|H].
  - repeat split; try reflexivity. discriminate.
  - repeat split.
    + unfold JS.trim. now rewrite (tidyFrom_trimStart _ H), (tidyFrom_trimEnd _ _ H).
    + now apply (proj1 (tidyFrom_collapse _)).
    + now apply (tidyFrom_no_double_space true).
    + intros a. now apply (tidyFrom_only_spaces true).
Qed.

(** ** Cleaning with and without the collapse *)

Lemma trim_tidy s : tidyFrom true s = true -> JS.trim s = s.
Proof.
  intros H. unfold JS.trim.
  now rewrite (tidyFrom_trimStart _ H), (tidyFrom_trimEnd _ _ H).
Qed.

Lemma cellHasValue_normalizeCell c b :
  cellHasValue (normalizeCell c b) = cellHasValue c.
Proof.
  destruct b; [|reflexivity].
  unfold cellHasValue. f_equal.
  destruct (normalizeCell_true_cases c) as [He|Ht].
  - rewrite He. change (JS.trim "") with "". simpl.
    unfold normalizeCell, JS.collapseWhitespace in He. simpl in He.
    destruct (JS.trim c) as [|a y]; [reflexivity|].
    simpl in He. destruct (isWhitespace a); discriminate.
  - rewrite (trim_tidy _ Ht).
    destruct (normalizeCell c true) as [|a y] eqn:Hn; [discriminate|].
    unfold normalizeCell, JS.collapseWhitespace in Hn. simpl in Hn.
    destruct (JS.trim c); [discriminate|reflexivity].
Qed.

Section MapCells.

Variable f : string -> string.
Hypothesis f_value : forall c, cellHasValue (f c) = cellHasValue c.
Hypothesis f_empty : f "" = "".

Lemma rowHasAnyValue_map r : rowHasAnyValue (map f r) = rowHasAnyValue r.
Proof.
  unfold rowHasAnyValue. induction r as [|c r IH]; simpl; [reflexivity|].
  now rewrite f_value, IH.
Qed.

Lemma filter_rows_map t :
  filter rowHasAnyValue (map (map f) t) = map (map f) (filter rowHasAnyValue t).
Proof.
  induction t as [|r t IH]; simpl; [reflexivity|].
  rewrite rowHasAnyValue_map. destruct (rowHasAnyValue r); simpl; now rewrite IH.
Qed.

Lemma colHas_map t j : colHas (map (map f) t) j = colHas t j.
Proof.
  unfold colHas. induction t as [|r t IH]; simpl; [reflexivity|].
  rewrite IH. f_equal. rewrite <- f_empty at 1. now rewrite map_nth, f_value.
Qed.

Lemma width_map t : width (map (map f) t) = width t.
Proof.
  unfold width. rewrite map_map. f_equal. apply map_ext. intros r.
  apply length_map.
Qed.

Lemma keepMarked_map r flags :
  keepMarked (map f r) flags = map f (keepMarked r flags).
Proof.
  revert flags; induction r as [|c r IH]; intros [|b flags]; simpl;
    try reflexivity.
  destruct b; simpl; now rewrite IH.
Qed.

Lemma removeEmptyColumns_map t :
  removeEmptyColumns (map (map f) t) = map (map f) (removeEmptyColumns t).
Proof.
  rewrite !removeEmptyColumns_rows, width_map, !map_map.
  apply map_ext. intros r. rewrite keepMarked_map. do 2 f_equal.
  apply map_ext. intros j. apply colHas_map.
Qed.

End MapCells.

(** X3: Cleaning with [collapseSpaces] on is cleaning with it off and then
    normalizing every cell: which rows and columns are deleted does not
    depend on the option. *)
Theorem clean_collapse_commutes (t : table) (rows cols : bool) :
  clean t {| collapseSpacesOpt := true; removeEmptyRowsOpt := rows;
             removeEmptyColsOpt := cols |}
  = map (map (fun c => normalizeCell c true))
        (clean t {| collapseSpacesOpt := false; removeEmptyRowsOpt := rows;
                    removeEmptyColsOpt := cols |}).
Proof.
  unfold clean, applyCleaning. cbn [collapseSpacesOpt removeEmptyRowsOpt removeEmptyColsOpt].
  set (f := fun c => normalizeCell c true).
  assert (Hv : forall c, cellHasValue (f c) = cellHasValue c)
    by (intros c; apply cellHasValue_normalizeCell).
  assert (He : f "" = "") by reflexivity.
  replace (map (fun r => map (fun c => normalizeCell c false) r) t) with t.
  2:{ symmetry. transitivity (map (fun r : row => r) t); [|apply map_id].
      apply map_ext. intros r. apply map_id. }
  change (map (fun r => map (fun c => normalizeCell c true) r) t)
    with (map (map f) t).
  destruct rows, cols;
    now rewrite ?filter_rows_map, ?removeEmptyColumns_map.
Qed.

(** ** What the removal passes leave and what they keep *)

(** X4: With both removals on, the cleaned table has no row without a value and
    no column without a value. *)
Theorem clean_leaves_nothing_blank (t : table) (o : CleaningOptions) :
  removeEmptyRowsOpt o = true ->
  removeEmptyColsOpt o = true ->
  Forall (fun r => rowHasAnyValue r = true) (clean t o) /\
  (forall j, j < width (clean t o) -> colHas (clean t o) j = true).
Proof.
  intros Hrows Hcols. unfold clean, applyCleaning. rewrite Hrows, Hcols. split.
  - apply removeEmptyColumns_keeps_value, filter_Forall.
  - intros j. apply removeEmptyColumns_colHas.
Qed.

Lemma clean_leaves_nothing_blank_witness :
  removeEmptyRowsOpt allOptions = true /\
  removeEmptyColsOpt allOptions = true /\
  Forall (fun r => rowHasAnyValue r = true)
         (clean [["a"; " "; "b"]; [""; " "]; ["c"]] allOptions).
Proof.
  split; [reflexivity|]. split; [reflexivity|].
  exact (proj1 (clean_leaves_nothing_blank
                  [["a"; " "; "b"]; [""; " "]; ["c"]] allOptions eq_refl eq_refl)).
Defined.

Lemma keepMarked_filter_values g r k n :
  (forall i, i < List.length r -> cellHasValue (nth i r "") = true ->
             g (k + i) = true) ->
  List.length r <= n ->
  filter cellHasValue (keepMarked r (map g (seq k n))) = filter cellHasValue r.
Proof.
  revert k n; induction r as [|c r IH]; intros k n Hg Hn; [reflexivity|].
  destruct n as [|n]; simpl in Hn; [lia|].
  assert (IH' : filter cellHasValue (keepMarked r (map g (seq (S k) n)))
                = filter cellHasValue r).
  { apply IH; [|lia]. intros i Hi Hv. rewrite Nat.add_succ_comm.
    apply Hg; [simpl; lia|exact Hv]. }
  cbn [seq map keepMarked]. destruct (g k) eqn:Hk.
  - simpl. now rewrite IH'.
  - rewrite IH'. simpl. destruct (cellHasValue c) eqn:Hc; [|reflexivity].
    specialize (Hg 0 ltac:(simpl; lia) Hc). rewrite Nat.add_0_r in Hg. congruence.
Qed.

(** X5: [removeEmptyColumns] keeps every row and, in every row, every cell that
    has a value, in the same order: it deletes blank cells only. *)
Theorem removeEmptyColumns_keeps_all_values (t : table) :
  map (filter cellHasValue) (removeEmptyColumns t) = map (filter cellHasValue) t.
Proof.
  rewrite removeEmptyColumns_rows, map_map. apply map_ext_in. intros r Hr.
  apply keepMarked_filter_values; [|now apply row_le_width].
  intros i _ Hv. simpl. apply colHas_true. now exists r.
Qed.

Lemma deletion_refl {A} (l : list A) : deletion l l.
Proof. induction l; constructor; assumption. Qed.

Lemma deletion_filter {A} (f : A -> bool) l : deletion (filter f l) l.
Proof.
  induction l as [|x l IH]; simpl; [constructor|].
  destruct (f x); constructor; assumption.
Qed.

Lemma deletion_nil_l {A} (l : list A) : deletion [] l.
Proof. induction l; constructor; assumption. Qed.

Lemma deletion_keepMarked r flags : deletion (keepMarked r flags) r.
Proof.
  revert flags; induction r as [|c r IH]; intros flags; [constructor|].
  destruct flags as [|b flags]; simpl; [apply deletion_nil_l|].
  destruct b; constructor; apply IH.
Qed.

Lemma Forall2_deletion_removeEmptyColumns t :
  Forall2 deletion (removeEmptyColumns t) t.
Proof.
  rewrite removeEmptyColumns_rows.
  generalize (map (colHas t) (seq 0 (width t))) as flags. intros flags.
  induction t as [|r t IH]; simpl; constructor; auto using deletion_keepMarked.
Qed.

(** X6: [clean] only deletes: its rows are, in order, some of the rows of the
    normalized table, each with some of its cells deleted.  Nothing is
    added, moved or changed after the normalization of the cells. *)
Theorem clean_only_deletes (t : table) (o : CleaningOptions) :
  exists kept,
    deletion kept (Spec.normalizeAll (collapseSpacesOpt o) t) /\
    Forall2 deletion (clean t o) kept.
Proof.
  unfold clean, applyCleaning, Spec.normalizeAll.
  set (u := map (fun r => map (fun c => normalizeCell c (collapseSpacesOpt o)) r) t).
  change (map (map (fun c => normalizeCell c (collapseSpacesOpt o))) t) with u.
  assert (Hsame : forall v : table, Forall2 deletion v v).
  { induction v; constructor; auto using deletion_refl. }
  destruct (removeEmptyRowsOpt o), (removeEmptyColsOpt o).
  - exists (filter rowHasAnyValue u).
    split; [apply deletion_filter|apply Forall2_deletion_removeEmptyColumns].
  - exists (filter rowHasAnyValue u). split; [apply deletion_filter|apply Hsame].
  - exists u. split; [apply deletion_refl|apply Forall2_deletion_removeEmptyColumns].
  - exists u. split; [apply deletion_refl|apply Hsame].
Qed.

(** ** The rows of a parsed table *)

Lemma consHead_nonempty c l : JS.consHead c l <> [].
Proof. destruct l; discriminate. Qed.

Lemma splitSpacesFrom_nonempty run s : JS.splitSpacesFrom run s <> [].
Proof.
  revert run; induction s as [|c s IH]; intros run; cbn [JS.splitSpacesFrom].
  - destruct run as [|[|run]]; discriminate.
  - destruct (Ascii.eqb c SPACE).
    + destruct run; apply IH.
    + destruct run as [|[|run]];
        [apply consHead_nonempty|apply consHead_nonempty|discriminate].
Qed.

Lemma splitLine_nonempty line d : splitLine line d <> [].
Proof.
  unfold splitLine, JS.split, JS.splitSpaces.
  destruct d as [[|c d]|];
    repeat match goal with
           | |- context [if ?b then _ else _] => destruct b
           end;
    auto using splitFrom_nonempty, splitSpacesFrom_nonempty.
Qed.

(** X7: A parsed table has one row per line and no row without a cell, so the
    rows of zero cells that [scoreTable] leaves out never come from the
    parser. *)
Theorem parseRowsSimple_rows (lines : list string) (d : option string) (b : bool) :
  let t := parseRowsSimple lines d b in
  List.length t = List.length lines /\
  Forall (fun r => 1 <= List.length r) t /\
  rowLengthsOf t = map (@List.length string) t.
Proof.
  cbv zeta.
  assert (Hrows : Forall (fun r : row => 1 <= List.length r)
                         (parseRowsSimple lines d b)).
  { apply Forall_forall. intros r Hr. unfold parseRowsSimple in Hr.
    apply in_map_iff in Hr as (line & <- & _). rewrite length_map.
    pose proof (splitLine_nonempty line d).
    destruct (splitLine line d); [contradiction|simpl; lia]. }
  split; [apply length_map|]. split; [exact Hrows|].
  unfold rowLengthsOf. apply filter_all.
  apply Forall_forall. intros n Hn. apply in_map_iff in Hn as (r & <- & Hr).
  rewrite Forall_forall in Hrows. apply Nat.ltb_lt. now apply Hrows.
Qed.

(** ** The pieces of a line split without a delimiter *)

Lemma Forall_consHead (P : string -> Prop) c l :
  Forall P l -> P (String c "") ->
  (forall p, P p -> In p l -> P (String c p)) ->
  Forall P (JS.consHead c l).
Proof.
  intros Hl H0 Hp. destruct l as [|p l]; simpl.
  - constructor; [assumption|constructor].
  - apply Forall_cons_iff in Hl as [Hp0 Hl].
    constructor; [apply Hp; [assumption|now left]|assumption].
Qed.

Lemma no_double_space_cons c p :
  Ascii.eqb c SPACE = false ->
  JS.includes "  " p = false -> JS.includes "  " (String c p) = false.
Proof.
  intros Hc Hp. cbn [JS.includes]. rewrite Hp, orb_false_r, prefix_cons.
  destruct (ascii_dec " " c) as [<-|]; [discriminate|reflexivity].
Qed.

Lemma no_double_space_space_cons c p :
  Ascii.eqb c SPACE = false ->
  JS.includes "  " (String c p) = false ->
  JS.includes "  " (String SPACE (String c p)) = false.
Proof.
  intros Hc Hp. cbn [JS.includes] in *. rewrite Hp, orb_false_r.
  unfold SPACE. rewrite !prefix_cons.
  destruct (ascii_dec " " " "); [|reflexivity].
  destruct (ascii_dec " " c) as [<-|]; [discriminate|reflexivity].
Qed.

Lemma splitSpacesFrom_after_char c s :
  Ascii.eqb c SPACE = false ->
  Forall (fun p => JS.includes "  " p = false) (JS.splitSpacesFrom 0 s) ->
  Forall (fun p => JS.includes "  " p = false)
         (JS.consHead c (JS.splitSpacesFrom 0 s)) /\
  Forall (fun p => JS.includes "  " p = false)
         (JS.consHead SPACE (JS.consHead c (JS.splitSpacesFrom 0 s))).
Proof.
  intros Hc H.
  pose proof (splitSpacesFrom_nonempty 0 s) as Hne.
  destruct (JS.splitSpacesFrom 0 s) as [|p l]; [contradiction|].
  apply Forall_cons_iff in H as [Hp Hl]. simpl.
  split; constructor; try assumption.
  - now apply no_double_space_cons.
  - now apply no_double_space_space_cons, no_double_space_cons.
Qed.

Lemma splitSpacesFrom_pieces run s :
  Forall (fun p => JS.includes "  " p = false) (JS.splitSpacesFrom run s).
Proof.
  revert run; induction s as [|c s IH]; intros run; cbn [JS.splitSpacesFrom].
  - destruct run as [|[|run]]; repeat constructor.
  - destruct (Ascii.eqb c SPACE) eqn:Hc.
    + destruct run; apply IH.
    + destruct (splitSpacesFrom_after_char c s Hc (IH 0)) as [H1 H2].
      destruct run as [|[|run]]; [exact H1|exact H2|].
      constructor; [reflexivity|exact H1].
Qed.

Lemma endsWithSpace_cons c s :
  s <> "" -> endsWithSpace (String c s) = endsWithSpace s.
Proof. destruct s; [contradiction|reflexivity]. Qed.

Lemma spaceRun_snoc k s :
  (spaceRun k ++ String SPACE s)%string = (spaceRun (S k) ++ s)%string.
Proof. induction k as [|k IH]; simpl; [reflexivity|now rewrite IH]. Qed.

Lemma SplitOnSpaceRuns_consHead c s l :
  Ascii.eqb c SPACE = false ->
  SplitOnSpaceRuns s l -> SplitOnSpaceRuns (String c s) (JS.consHead c l).
Proof.
  intros Hc H. destruct H as [c0 H0|c0 k rest cells H0 He Hk Hs Hrest].
  - apply split_last. now apply no_double_space_cons.
  - change (String c (c0 ++ spaceRun k ++ rest))
      with (String c c0 ++ spaceRun k ++ rest)%string.
    apply split_run; try assumption.
    + now apply no_double_space_cons.
    + destruct c0 as [|a c0]; [simpl; exact Hc|].
      rewrite endsWithSpace_cons by discriminate. exact He.
Qed.

Lemma SplitOnSpaceRuns_space_head s l :
  SplitOnSpaceRuns s l -> startsWithSpace s = false -> s <> "" ->
  SplitOnSpaceRuns (String SPACE s) (JS.consHead SPACE l).
Proof.
  intros H. destruct H as [c0 H0|c0 k rest cells H0 He Hk Hs Hrest];
    intros Hst Hne.
  - destruct c0 as [|a c0]; [contradiction|].
    apply split_last. now apply no_double_space_space_cons.
  - destruct c0 as [|a c0].
    + exfalso. destruct k as [|k]; [lia|]. simpl in Hst. discriminate.
    + change (String SPACE (String a c0 ++ spaceRun k ++ rest))
        with (String SPACE (String a c0) ++ spaceRun k ++ rest)%string.
      apply split_run; try assumption.
      now apply no_double_space_space_cons.
Qed.

(** The split on the runs of spaces, from each of the three states of the
    scan: at the start of a cell, after one space, inside a run. *)
Lemma splitSpacesFrom_runs s :
  SplitOnSpaceRuns s (JS.splitSpacesFrom 0 s) /\
  SplitOnSpaceRuns (String SPACE s) (JS.splitSpacesFrom 1 s) /\
  (forall k, 2 <= k ->
             SplitOnSpaceRuns (spaceRun k ++ s) (JS.splitSpacesFrom 2 s)).
Proof.
  induction s as [|c s (IHa & IHb & IHc)].
  - split; [now apply split_last|]. split; [now apply split_last|].
    intros k Hk. apply (split_run "" k "" [""]); try reflexivity;
      [exact Hk|now apply split_last].
  - cbn [JS.splitSpacesFrom].
    destruct (Ascii.eqb_spec c SPACE) as [->|Hc].
    + split; [exact IHb|]. split; [exact (IHc 2 (le_n 2))|].
      intros k Hk. rewrite spaceRun_snoc. apply IHc. lia.
    + apply Ascii.eqb_neq in Hc.
      pose proof (SplitOnSpaceRuns_consHead c s _ Hc IHa) as Hhead.
      split; [exact Hhead|]. split.
      * apply SplitOnSpaceRuns_space_head;
          [exact Hhead|exact Hc|discriminate].
      * intros k Hk.
        apply (split_run "" k (String c s)); try reflexivity; assumption.
Qed.

(** X8: Without a delimiter, a line is split on the first of tab, semicolon and
    pipe that it holds: joining the cells with that character gives the line
    back and no cell holds the character.  A line that holds none of them
    is split on its runs of two or more spaces, every run being taken
    whole, and no cell holds two spaces in a row. *)
Theorem splitLine_null_pieces (line : string) :
  let cells := splitLine line None in
  let splitOn d :=
    JS.join d cells = line /\ Forall (fun p => JS.includes d p = false) cells in
  (JS.includes (String TAB "") line = true /\ splitOn (String TAB "")) \/
  (JS.includes (String TAB "") line = false /\
   JS.includes ";" line = true /\ splitOn ";") \/
  (JS.includes (String TAB "") line = false /\
   JS.includes ";" line = false /\
   JS.includes "|" line = true /\ splitOn "|") \/
  (JS.includes (String TAB "") line = false /\
   JS.includes ";" line = false /\
   JS.includes "|" line = false /\
   SplitOnSpaceRuns line cells /\
   Forall (fun p => JS.includes "  " p = false) cells).
Proof.
  cbv zeta. unfold splitLine.
  destruct (JS.includes (String TAB "") line);
    [left; split; [reflexivity|]; split;
     [apply split_join|apply splitFrom_pieces]; discriminate|].
  destruct (JS.includes ";" line);
    [right; left; repeat split;
     [apply split_join|apply splitFrom_pieces]; discriminate|].
  destruct (JS.includes "|" line);
    [right; right; left; repeat split;
     [apply split_join|apply splitFrom_pieces]; discriminate|].
  right; right; right. repeat split.
  - apply splitSpacesFrom_runs.
  - apply splitSpacesFrom_pieces.
Qed.

(** ** The best score *)

Lemma maxOf_all_equal w l : l <> [] -> Forall (fun n => n = w) l -> maxOf l = w.
Proof.
  intros Hne H. induction H as [|n l -> Hl IH]; [contradiction|].
  simpl. destruct l as [|n' l]; [simpl; lia|].
  rewrite IH by discriminate. lia.
Qed.

Lemma list_sum_zero l : list_sum l = 0 -> Forall (fun n => n = 0) l.
Proof.
  induction l as [|n l IH]; simpl; intros H; constructor; [lia|apply IH; lia].
Qed.

Lemma absDiff_zero n m : absDiff n m = 0 <-> n = m.
Proof. unfold absDiff. lia. Qed.

Lemma scoreTable_all_equal t w :
  rowLengthsOf t <> [] -> 2 <= w -> Forall (fun n => n = w) (rowLengthsOf t) ->
  scoreTable t = Finite 0.
Proof.
  intros Hne Hw Hall. rewrite scoreTable_unfold. cbv zeta.
  set (l := rowLengthsOf t) in *.
  destruct (Nat.eqb_spec (List.length l) 0) as [Hz|_];
    [apply length_zero_iff_nil in Hz; contradiction|].
  rewrite (maxOf_all_equal w l Hne Hall).
  destruct (Nat.leb_spec w 1) as [|_]; [lia|]. simpl.
  destruct (findMode_spec l Hne) as [Hmode Hfreq].
  set (m := snd (findMode (countLengths l))) in *.
  assert (Hm : m = w).
  { destruct Hmode as (p & q & Hl & _). rewrite Forall_forall in Hall.
    apply Hall. rewrite Hl. apply in_elt. }
  rewrite Hfreq, Hm. f_equal.
  pose proof (length_filter_differs w l) as Hlen.
  assert (Hf : filter (fun n => negb (n =? w)) l = []).
  { clear - Hall. induction Hall as [|n l -> _ IH]; [reflexivity|].
    simpl. now rewrite Nat.eqb_refl. }
  rewrite Hf in Hlen. simpl in Hlen.
  assert (Hs : list_sum (map (fun n => absDiff n w) l) = 0).
  { clear - Hall. induction Hall as [|n l -> _ IH]; [reflexivity|].
    simpl. rewrite IH. unfold absDiff. lia. }
  rewrite Hs. lia.
Qed.

(** X9: The score is 0, the best there is, exactly when the rows that have
    cells all have the same number of cells, at least two, and there is such
    a row. *)
Theorem scoreTable_zero (t : table) :
  scoreTable t = Finite 0 <->
  exists w, 2 <= w /\ rowLengthsOf t <> [] /\
            Forall (fun n => n = w) (rowLengthsOf t).
Proof.
  split.
  - rewrite scoreTable_unfold. cbv zeta. set (l := rowLengthsOf t).
    destruct (Nat.eqb_spec (List.length l) 0) as [|Hz]; [discriminate|].
    destruct (Nat.leb_spec (maxOf l) 1) as [|Hmax]; [discriminate|]. simpl.
    intros Hzero. injection Hzero as Hzero.
    assert (Hne : l <> []) by (intros Hl; rewrite Hl in Hz; now apply Hz).
    set (m := snd (findMode (countLengths l))) in *.
    assert (Hall : Forall (fun n => n = m) l).
    { assert (Hs : list_sum (map (fun n => absDiff n m) l) = 0) by lia.
      apply list_sum_zero in Hs. rewrite Forall_forall in *.
      intros n Hn. apply absDiff_zero. apply Hs.
      apply in_map_iff. now exists n. }
    exists m. split; [|split; assumption].
    rewrite (maxOf_all_equal m l Hne Hall) in Hmax. lia.
  - intros (w & Hw & Hne & Hall). now apply (scoreTable_all_equal t w).
Qed.

(** ** What auto-detection returns *)

Lemma scoreTable_finite_hasTable t : scoreTable t <> Infinity -> hasTable t = true.
Proof.
  rewrite scoreTable_unfold. cbv zeta.
  destruct (Nat.eqb_spec (List.length (rowLengthsOf t)) 0) as [Hz0|Hz];
    simpl; [intros Hc; now contradiction Hc|].
  destruct (Nat.leb_spec (maxOf (rowLengthsOf t)) 1) as [Hmax1|Hmax];
    [intros Hc; now contradiction Hc|].
  intros _. apply maxOf_lt in Hmax as (n & Hn & Hlt).
  apply filter_In in Hn as [Hn _]. apply in_map_iff in Hn as (r & <- & Hr).
  unfold hasTable. apply andb_true_intro. split.
  - apply Nat.ltb_lt. destruct t; [contradiction|simpl; lia].
  - apply existsb_exists. exists r. split; [assumption|now apply Nat.ltb_lt].
Qed.

Lemma chooseBestTableSimple_cases lines b :
  chooseBestTableSimple lines b = {| parsedTable := []; detected := "auto" |} \/
  exists before c after,
    candidates = before ++ c :: after /\
    chooseBestTableSimple lines b =
      {| parsedTable := parseRowsSimple lines (delim c) b; detected := name c |} /\
    scoreTable (parseRowsSimple lines (delim c) b) <> Infinity /\
    Forall (fun c' =>
              score_ltb (scoreTable (parseRowsSimple lines (delim c) b))
                        (scoreTable (parseRowsSimple lines (delim c') b)) = true)
           before /\
    Forall (fun c' =>
              score_ltb (scoreTable (parseRowsSimple lines (delim c') b))
                        (scoreTable (parseRowsSimple lines (delim c) b)) = false)
           after.
Proof.
  unfold chooseBestTableSimple, chooseAmong.
  destruct (fold_chooseStep lines b candidates initialBest)
    as [[-> _]|(before & c & after & Hc & -> & Hlt & Hb & Ha)];
    [now left|right].
  exists before, c, after. repeat split; try assumption.
  intros Hinf. rewrite Hinf in Hlt. discriminate.
Qed.

Lemma parseRowsSimple_cells lines d b r :
  In r (parseRowsSimple lines d b) ->
  exists line, In line lines /\ List.length r = List.length (splitLine line d).
Proof.
  unfold parseRowsSimple. intros Hr. apply in_map_iff in Hr as (line & <- & Hl).
  exists line. split; [assumption|apply length_map].
Qed.

Lemma hasTable_row t :
  hasTable t = true -> exists r, In r t /\ 1 < List.length r.
Proof.
  unfold hasTable. intros H. apply andb_prop in H as [_ H].
  apply existsb_exists in H as (r & Hr & Hlen). exists r.
  split; [assumption|now apply Nat.ltb_lt].
Qed.

(** X10: Auto-detection either finds nothing, and returns the empty table under
    the label [auto], or returns under the name of one of the four
    candidates a table with one row per line, where every row has a cell and
    some row has two or more: the caller's test [hasTable] holds on the raw
    table whenever a candidate is named. *)
Theorem chooseBestTableSimple_outcome (lines : list string) (b : bool) :
  let r := chooseBestTableSimple lines b in
  r = {| parsedTable := []; detected := "auto" |} \/
  (In (detected r) ["tabs"; "pipe"; "semicolon"; "spaces"] /\
   List.length (parsedTable r) = List.length lines /\
   Forall (fun cells => 1 <= List.length cells) (parsedTable r) /\
   hasTable (parsedTable r) = true).
Proof.
  cbv zeta.
  destruct (chooseBestTableSimple_cases lines b)
    as [->|(before & c & after & Hc & -> & Hfin & _)]; [now left|right].
  cbn [detected parsedTable]. split; [|split; [|split]].
  - change ["tabs"; "pipe"; "semicolon"; "spaces"] with (map name candidates).
    apply in_map. rewrite Hc. apply in_elt.
  - apply length_map.
  - apply Forall_forall. intros r Hr.
    apply parseRowsSimple_cells in Hr as (line & _ & ->).
    pose proof (splitLine_nonempty line (delim c)).
    destruct (splitLine line (delim c)); [contradiction|simpl; lia].
  - now apply scoreTable_finite_hasTable.
Qed.

(** X11: The delimiter that is named occurs in the input: when auto-detection
    names a candidate, some line is split by that candidate in two cells or
    more, and that line holds the delimiter of the candidate (for the
    candidate spaces, one of the four signals). *)
Theorem detected_delimiter_occurs (lines : list string) (b : bool) :
  let r := chooseBestTableSimple lines b in
  detected r = "auto" \/
  exists c line,
    In c candidates /\ detected r = name c /\ In line lines /\
    1 < List.length (splitLine line (delim c)) /\
    match delim c with
    | Some d => JS.includes d line = true
    | None => Spec.noSignal line = false
    end.
Proof.
  cbv zeta.
  destruct (chooseBestTableSimple_cases lines b)
    as [->|(before & c & after & Hc & -> & Hfin & _)]; [now left|right].
  assert (Hin : In c candidates) by (rewrite Hc; apply in_elt).
  apply scoreTable_finite_hasTable, hasTable_row in Hfin as (r & Hr & Hlen).
  apply parseRowsSimple_cells in Hr as (line & Hline & Hcells).
  rewrite Hcells in Hlen.
  exists c, line. repeat split; try assumption.
  destruct (delim c) as [d|] eqn:Hd.
  - destruct (JS.includes d line) eqn:Hi; [reflexivity|exfalso].
    assert (Hsplit : splitLine line (Some d) = [line]).
    { clear - Hin Hd Hi. simpl in Hin.
      destruct Hin as [<-|[<-|[<-|[<-|[]]]]]; simpl in Hd;
        try discriminate; injection Hd as <-;
        now apply splitFrom_no_occurrence. }
    rewrite Hsplit in Hlen. simpl in Hlen. lia.
  - destruct (Spec.noSignal line) eqn:Hn; [exfalso|reflexivity].
    rewrite (splitLine_no_signal line None Hn) in Hlen;
      [simpl in Hlen; lia|].
    simpl. now right; right; right; left.
Qed.

Lemma score_ltb_irrefl s : score_ltb s s = false.
Proof. destruct s; simpl; [apply Nat.ltb_irrefl|reflexivity]. Qed.

Lemma parseRowsSimple_ext lines d d' b :
  Forall (fun line => splitLine line d = splitLine line d') lines ->
  parseRowsSimple lines d b = parseRowsSimple lines d' b.
Proof.
  intros H. unfold parseRowsSimple. apply map_ext_in. intros line Hl.
  rewrite Forall_forall in H. now rewrite (H line Hl).
Qed.

(** X12: When every line holds a tab, the pass of the candidate spaces parses
    the lines as the pass of the candidate tabs does, and the label is never
    [spaces]: an equal score does not take the place of an earlier one. *)
Theorem spaces_never_selected_with_tabs (lines : list string) (b : bool) :
  Forall (fun line => JS.includes (String TAB "") line = true) lines ->
  parseRowsSimple lines None b = parseRowsSimple lines (Some (String TAB "")) b /\
  detected (chooseBestTableSimple lines b) <> "spaces".
Proof.
  intros Htabs.
  assert (Heq : parseRowsSimple lines None b
                = parseRowsSimple lines (Some (String TAB "")) b).
  { apply parseRowsSimple_ext. eapply Forall_impl; [|exact Htabs].
    intros line Hl. unfold splitLine. now rewrite Hl. }
  split; [exact Heq|].
  destruct (chooseBestTableSimple_cases lines b)
    as [->|(before & c & after & Hc & -> & _ & Hb & _)]; [discriminate|].
  cbn [detected]. intros Hname.
  unfold candidates in Hc.
  destruct before as [|c1 [|c2 [|c3 [|c4 before]]]]; simpl in Hc;
    injection Hc as <-; intros; subst; try discriminate.
  - apply Forall_cons_iff in Hb as [Hb _]. cbn [delim] in Hb.
    rewrite Heq, score_ltb_irrefl in Hb. discriminate.
  - destruct before; discriminate.
Qed.

Lemma spaces_never_selected_with_tabs_witness :
  Forall (fun line => JS.includes (String TAB "") line = true)
         [String "a" (String TAB "b  c"); String "d" (String TAB "e  f")] /\
  detected (chooseBestTableSimple
              [String "a" (String TAB "b  c"); String "d" (String TAB "e  f")]
              true) <> "spaces".
Proof.
  assert (H : Forall (fun line => JS.includes (String TAB "") line = true)
         [String "a" (String TAB "b  c"); String "d" (String TAB "e  f")])
    by (repeat constructor).
  split; [exact H|].
  exact (proj2 (spaces_never_selected_with_tabs _ true H)).
Defined.

(** ** Splitting and joining on one character *)

Lemma prefix_empty s : prefix "" s = true.
Proof. destruct s; reflexivity. Qed.

Lemma includes_char a s : JS.includes (String a "") s = occurs a s.
Proof.
  induction s as [|c s IH]; [reflexivity|].
  cbn [JS.includes occurs]. rewrite IH, prefix_cons, prefix_empty. f_equal.
  destruct (ascii_dec a c) as [->|Hne].
  - now rewrite Ascii.eqb_refl.
  - symmetry. apply Ascii.eqb_neq. congruence.
Qed.

Lemma occurs_append a s1 s2 :
  occurs a (s1 ++ s2) = occurs a s1 || occurs a s2.
Proof.
  induction s1 as [|c s1 IH]; [reflexivity|].
  simpl. now rewrite IH, orb_assoc.
Qed.

Lemma occurs_join a sep parts :
  occurs a sep = false -> Forall (fun p => occurs a p = false) parts ->
  occurs a (JS.join sep parts) = false.
Proof.
  intros Hsep H. induction H as [|p parts Hp Hparts IH]; [reflexivity|].
  destruct parts as [|q parts]; [exact Hp|].
  change (JS.join sep (p :: q :: parts))
    with (p ++ sep ++ JS.join sep (q :: parts))%string.
  now rewrite !occurs_append, Hp, Hsep, IH.
Qed.

Lemma splitFrom_char_piece a p rest :
  occurs a p = false ->
  JS.splitFrom (String a "") 0 (p ++ String a rest)
  = p :: JS.splitFrom (String a "") 0 rest.
Proof.
  induction p as [|c p IH]; intros Hp.
  - cbn [append JS.splitFrom]. rewrite prefix_cons, prefix_empty.
    destruct (ascii_dec a a); [reflexivity|contradiction].
  - cbn [occurs] in Hp. apply orb_false_elim in Hp as [Hc Hp].
    cbn [append JS.splitFrom]. rewrite prefix_cons.
    destruct (ascii_dec a c) as [->|_]; [now rewrite Ascii.eqb_refl in Hc|].
    now rewrite (IH Hp).
Qed.

(** Splitting what was joined with one character gives the pieces back,
    when no piece holds the character. *)
Lemma split_join_char a parts :
  parts <> [] -> Forall (fun p => occurs a p = false) parts ->
  JS.split (JS.join (String a "") parts) (String a "") = parts.
Proof.
  unfold JS.split. intros Hne H.
  induction H as [|p parts Hp Hparts IH]; [contradiction|].
  destruct parts as [|q parts].
  - simpl JS.join. apply splitFrom_no_occurrence. now rewrite includes_char.
  - change (JS.join (String a "") (p :: q :: parts))
      with (p ++ String a (JS.join (String a "") (q :: parts)))%string.
    rewrite (splitFrom_char_piece a p _ Hp). f_equal. apply IH. discriminate.
Qed.

(** ** The lines of the pasted text *)

Lemma replaceCRLF_without_CR s : occurs CR s = false -> replaceCRLF s = s.
Proof.
  induction s as [|c s IH]; [reflexivity|].
  cbn [occurs replaceCRLF]. intros H. apply orb_false_elim in H as [Hc Hs].
  rewrite Hc. now rewrite (IH Hs).
Qed.

(** X13: The lines that reach the parser are not empty and hold no line feed. *)
Theorem linesOf_lines (normalizedText : string) :
  Forall (fun line => line <> "" /\ occurs LF line = false)
         (linesOf normalizedText).
Proof.
  unfold linesOf. apply Forall_forall. intros line Hl.
  apply filter_In in Hl as [Hin Hlen]. split.
  - intros ->. discriminate.
  - rewrite <- includes_char.
    pose proof (splitFrom_pieces (String LF "") 0 normalizedText
                  ltac:(discriminate)) as H.
    rewrite Forall_forall in H. now apply H.
Qed.

(** ** The text copied for spreadsheets, pasted back *)

Lemma chooseStep_at_zero lines b st c :
  bestScore st = Finite 0 -> chooseStep lines b st c = st.
Proof.
  intros H. unfold chooseStep. rewrite H.
  destruct (scoreTable (parseRowsSimple lines (delim c) b)); reflexivity.
Qed.

Lemma join_two_nonempty sep (r : row) :
  sep <> "" -> 2 <= List.length r -> JS.join sep r <> "".
Proof.
  intros Hsep Hr. destruct r as [|c1 [|c2 r]]; simpl in Hr; try lia.
  change (JS.join sep (c1 :: c2 :: r))
    with (c1 ++ sep ++ JS.join sep (c2 :: r))%string.
  destruct c1; [|discriminate]. destruct sep; [contradiction|discriminate].
Qed.

Section TSV.

Variable t : table.
Variable w : nat.
Hypothesis t_rows : t <> [].
Hypothesis w_two : 2 <= w.
Hypothesis t_width : Forall (fun r => List.length r = w) t.
Hypothesis t_cells :
  Forall (Forall (fun c => occurs TAB c = false /\ occurs LF c = false
                           /\ occurs CR c = false)) t.

Let tsvLines : list string := map (fun r => JS.join (String TAB "") r) t.

Lemma tsv_cells_without a :
  (forall c, occurs TAB c = false /\ occurs LF c = false /\ occurs CR c = false ->
             occurs a c = false) ->
  Ascii.eqb TAB a = false ->
  Forall (fun line => occurs a line = false) tsvLines.
Proof.
  intros Ha Htab. apply Forall_forall. intros line Hl.
  apply in_map_iff in Hl as (r & <- & Hr).
  apply occurs_join; [cbn [occurs]; now rewrite Htab|].
  rewrite Forall_forall in t_cells. specialize (t_cells r Hr).
  eapply Forall_impl; [|exact t_cells]. exact Ha.
Qed.

Lemma tsv_lines : linesOf (replaceCRLF (toTSV t)) = tsvLines.
Proof.
  unfold toTSV. fold tsvLines.
  rewrite replaceCRLF_without_CR.
  2:{ apply occurs_join; [reflexivity|].
      apply tsv_cells_without; [tauto|reflexivity]. }
  unfold linesOf. rewrite split_join_char.
  - apply filter_all, Forall_forall. intros line Hl.
    apply in_map_iff in Hl as (r & <- & Hr).
    rewrite Forall_forall in t_width.
    pose proof (join_two_nonempty (String TAB "") r ltac:(discriminate)
                  ltac:(rewrite (t_width r Hr); exact w_two)) as Hne.
    destruct (JS.join (String TAB "") r); [contradiction|reflexivity].
  - unfold tsvLines. destruct t; [contradiction|discriminate].
  - apply tsv_cells_without; [tauto|reflexivity].
Qed.

Lemma tsv_parse b :
  parseRowsSimple tsvLines (Some (String TAB "")) b
  = map (map (fun c => normalizeCell c b)) t.
Proof.
  unfold parseRowsSimple, tsvLines. rewrite map_map.
  apply map_ext_in. intros r Hr. f_equal.
  change (splitLine (JS.join (String TAB "") r) (Some (String TAB "")))
    with (JS.split (JS.join (String TAB "") r) (String TAB "")).
  apply split_join_char.
  - rewrite Forall_forall in t_width. specialize (t_width r Hr).
    intros ->. simpl in t_width. lia.
  - rewrite Forall_forall in t_cells. specialize (t_cells r Hr).
    eapply Forall_impl; [|exact t_cells]. intros c (Hc & _). exact Hc.
Qed.

Lemma tsv_score b :
  scoreTable (map (map (fun c => normalizeCell c b)) t) = Finite 0.
Proof.
  assert (Hlen : map (@List.length string)
                     (map (map (fun c => normalizeCell c b)) t)
                 = repeat w (List.length t)).
  { assert (Hgen : forall u : table,
               Forall (fun r => List.length r = w) u ->
               map (@List.length string)
                   (map (map (fun c => normalizeCell c b)) u)
               = repeat w (List.length u)).
    { intros u Hu. induction Hu as [|r u Hr _ IH]; [reflexivity|].
      simpl. now rewrite length_map, Hr, IH. }
    now apply Hgen. }
  apply (scoreTable_all_equal _ w); [|exact w_two|]; unfold rowLengthsOf;
    rewrite Hlen.
  - destruct t; [contradiction|]. simpl.
    destruct w; [lia|]. simpl. discriminate.
  - apply Forall_forall. intros n Hn. apply filter_In in Hn as [Hn _].
    now apply repeat_spec in Hn.
Qed.

Lemma tsv_detected b :
  chooseBestTableSimple (linesOf (replaceCRLF (toTSV t))) b
  = {| parsedTable := map (map (fun c => normalizeCell c b)) t;
       detected := "tabs" |}.
Proof.
  rewrite tsv_lines. unfold chooseBestTableSimple, chooseAmong, candidates.
  cbn [fold_left].
  assert (Hfirst : chooseStep tsvLines b initialBest
                     {| name := "tabs"; delim := Some (String TAB "") |}
                   = {| best := map (map (fun c => normalizeCell c b)) t;
                        bestDetected := "tabs"; bestScore := Finite 0 |}).
  { unfold chooseStep. cbn [delim name]. rewrite tsv_parse, tsv_score.
    reflexivity. }
  rewrite Hfirst.
  set (st := {| best := map (map (fun c => normalizeCell c b)) t;
                bestDetected := "tabs"; bestScore := Finite 0 |}).
  rewrite !(chooseStep_at_zero tsvLines b st) by reflexivity. reflexivity.
Qed.

End TSV.

(** X14: Copying a table for a spreadsheet and pasting the text back gives the
    table back under the label [tabs] (with its cells normalized when
    [collapseSpaces] is on), when the table has rows, its rows have the same
    number of cells, two at least, and no cell holds a tab, a line feed or a
    carriage return. *)
Theorem tsv_round_trip (t : table) (w : nat) (b : bool) :
  t <> [] ->
  2 <= w ->
  Forall (fun r => List.length r = w) t ->
  Forall (Forall (fun c => occurs TAB c = false /\ occurs LF c = false
                           /\ occurs CR c = false)) t ->
  chooseBestTableSimple (linesOf (replaceCRLF (toTSV t))) b
  = {| parsedTable := map (map (fun c => normalizeCell c b)) t;
       detected := "tabs" |}.
Proof. intros. now apply (tsv_detected t w). Qed.

Lemma tsv_round_trip_witness :
  chooseBestTableSimple
    (linesOf (replaceCRLF (toTSV [["Name"; "Age"]; ["Alice"; "24"]; ["Bob"; ""]])))
    false
  = {| parsedTable := [["Name"; "Age"]; ["Alice"; "24"]; ["Bob"; ""]];
       detected := "tabs" |}.
Proof.
  apply (tsv_round_trip [["Name"; "Age"]; ["Alice"; "24"]; ["Bob"; ""]] 2 false).
  - discriminate.
  - lia.
  - repeat constructor.
  - repeat constructor.
Defined.

(** ** The lines of the Markdown text *)

Lemma markdownLine_no_LF cells :
  Forall (fun c => occurs LF c = false) cells ->
  occurs LF (markdownLine cells) = false.
Proof.
  intros H. unfold markdownLine.
  rewrite !occurs_append, (occurs_join LF " | " cells eq_refl H). reflexivity.
Qed.

Lemma escaped_cells_no_LF r :
  Forall (fun c => occurs LF c = false) (map escapeMarkdownCell r).
Proof.
  apply Forall_forall. intros c Hc. apply in_map_iff in Hc as (c0 & <- & _).
  apply escapeMarkdownCell_no_LF.
Qed.

(** X18: Whatever the cells hold, the Markdown text of a table with rows has one
    line per row and one more for the separator: splitting it on line feeds
    gives two lines more than there are rows after the first. *)
Theorem toMarkdownTable_line_count (header : row) (body : table) :
  List.length (JS.split (toMarkdownTable (header :: body)) (String LF ""))
  = 2 + List.length body.
Proof.
  unfold toMarkdownTable.
  set (maxCols := maxOf (map (@List.length string) (header :: body))).
  set (padded := map (fun r => map escapeMarkdownCell (padRow maxCols r))
                     (header :: body)).
  rewrite split_join_char.
  - simpl. unfold padded. simpl. now rewrite !length_map.
  - discriminate.
  - assert (Hpadded : Forall (fun line => occurs LF line = false)
                             (map markdownLine padded)).
    { apply Forall_forall. intros line Hl.
      apply in_map_iff in Hl as (cells & <- & Hc). unfold padded in Hc.
      apply in_map_iff in Hc as (r & <- & _).
      apply markdownLine_no_LF, escaped_cells_no_LF. }
    unfold padded in *. cbn [map hd tl] in *.
    apply Forall_cons_iff in Hpadded as [Hh Hb].
    constructor; [exact Hh|]. constructor; [|exact Hb].
    apply markdownLine_no_LF. apply Forall_forall. intros c Hc.
    apply in_map_iff in Hc as (c0 & <- & _). reflexivity.
Qed.

(** ** Escaped pipes can be read back *)

Lemma escapePipes_head c s r :
  JS.escapePipes s = String c r -> Ascii.eqb c PIPE = false.
Proof.
  destruct s as [|a s]; [discriminate|]. cbn [JS.escapePipes].
  destruct (Ascii.eqb a PIPE) eqn:Ha; intros H; injection H as <- _;
    [reflexivity|exact Ha].
Qed.

Lemma escapePipes_empty s : JS.escapePipes s = "" -> s = "".
Proof.
  destruct s as [|a s]; [reflexivity|]. cbn [JS.escapePipes].
  destruct (Ascii.eqb a PIPE); discriminate.
Qed.

(** X19: The escape of the pipes loses nothing: dropping the backslash before
    every pipe gives the cell back, so two cells with the same escaped text
    are the same cell. *)
Theorem escapePipes_round_trip (s : string) :
  unescapePipes (JS.escapePipes s) = s /\
  (forall s', JS.escapePipes s = JS.escapePipes s' -> s = s').
Proof.
  assert (Hrt : forall u, unescapePipes (JS.escapePipes u) = u).
  { induction u as [|c u IH]; [reflexivity|].
    cbn [JS.escapePipes]. destruct (Ascii.eqb_spec c PIPE) as [->|Hc].
    - cbn [unescapePipes]. rewrite !Ascii.eqb_refl. simpl. now rewrite IH.
    - cbn [unescapePipes].
      destruct (JS.escapePipes u) as [|c' r] eqn:Hu.
      + now rewrite (escapePipes_empty _ Hu).
      + rewrite (escapePipes_head _ _ _ Hu), andb_false_r. now rewrite IH. }
  split; [apply Hrt|].
  intros s' H. rewrite <- (Hrt s), H. apply Hrt.
Qed.

(** ** The extension of a file name *)

Lemma length_consHead c l :
  l <> [] -> List.length (JS.consHead c l) = List.length l.
Proof. destruct l; [contradiction|reflexivity]. Qed.

Lemma last_consHead c l d :
  2 <= List.length l -> last (JS.consHead c l) d = last l d.
Proof. destruct l as [|x [|y l]]; simpl; try lia. reflexivity. Qed.

Lemma last_cons_nonempty {A} (x : A) l d : l <> [] -> last (x :: l) d = last l d.
Proof. destruct l; [contradiction|reflexivity]. Qed.

Lemma splitFrom_char_two a p e :
  2 <= List.length (JS.splitFrom (String a "") 0 (p ++ String a e)).
Proof.
  induction p as [|c p IH]; cbn [append JS.splitFrom]; rewrite prefix_cons.
  - destruct (ascii_dec a a); [|contradiction]. rewrite prefix_empty. simpl.
    pose proof (splitFrom_nonempty (String a "") 0 e).
    destruct (JS.splitFrom (String a "") 0 e); [contradiction|simpl; lia].
  - destruct (ascii_dec a c).
    + rewrite prefix_empty. simpl. lia.
    + rewrite length_consHead; [exact IH|].
      intros H. rewrite H in IH. simpl in IH. lia.
Qed.

Lemma splitFrom_char_last a p e :
  occurs a e = false ->
  last (JS.splitFrom (String a "") 0 (p ++ String a e)) "" = e.
Proof.
  intros He. induction p as [|c p IH]; cbn [append JS.splitFrom];
    rewrite prefix_cons.
  - destruct (ascii_dec a a); [|contradiction]. rewrite prefix_empty.
    cbn [String.length Nat.sub].
    rewrite splitFrom_no_occurrence by now rewrite includes_char.
    reflexivity.
  - destruct (ascii_dec a c).
    + rewrite prefix_empty. cbn [String.length Nat.sub].
      rewrite last_cons_nonempty by apply splitFrom_nonempty. exact IH.
    + rewrite last_consHead by apply splitFrom_char_two. exact IH.
Qed.

(** X20: The extension is what follows the last dot of the name, in lower case;
    a name without a dot is its own extension. *)
Theorem extensionOf_spec (base e : string) (size : N) :
  occurs "." e = false ->
  extensionOf {| fileName := base ++ "." ++ e; fileSize := size |}
  = toLowerCase e /\
  extensionOf {| fileName := e; fileSize := size |} = toLowerCase e.
Proof.
  intros He. unfold extensionOf, JS.split. cbn [fileName]. split; f_equal.
  - change (base ++ "." ++ e)%string with (base ++ String "." e)%string.
    now apply splitFrom_char_last.
  - rewrite splitFrom_no_occurrence by now rewrite includes_char.
    reflexivity.
Qed.

Lemma extensionOf_spec_witness :
  extensionOf {| fileName := "sales.2024.CSV"; fileSize := 10 |} = "csv" /\
  extensionOf {| fileName := "CSV"; fileSize := 10 |} = "csv".
Proof.
  exact (extensionOf_spec "sales.2024" "CSV" 10 eq_refl).
Defined.

(** ** Which files are read *)

(** X21: A reading is started only for a file of at most 10 MB whose extension
    is csv or txt (read as text, the imported table being dropped) or xlsx
    (read as an array buffer, the pasted text and the delimiter being
    wiped), and then no error is shown; any other file starts no reading and
    shows an error. *)
Theorem loadFile_reading (st : AppState) (f : file) :
  let st' := fst (loadFile st f) in
  match snd (loadFile st f) with
  | Some (ReadAsText g) =>
      g = f /\ (fileSize f <= maxBytes)%N /\
      (extensionOf f = "csv" \/ extensionOf f = "txt") /\
      fileError st' = "" /\ importedTable st' = None /\ text st' = text st
  | Some (ReadAsArrayBuffer g) =>
      g = f /\ (fileSize f <= maxBytes)%N /\ extensionOf f = "xlsx" /\
      fileError st' = "" /\ text st' = "" /\ customDelimiter st' = ""
  | None =>
      fileError st' <> "" /\
      ((maxBytes < fileSize f)%N \/
       ~ In (extensionOf f) ["csv"; "txt"; "xlsx"])
  end.
Proof.
  cbv zeta. unfold loadFile, loadXlsxFile, loadTextFile.
  destruct (String.eqb_spec (extensionOf f) "xlsx") as [Hx|Hx].
  - destruct (N.ltb_spec maxBytes (fileSize f)) as [Hs|Hs]; cbn [fst snd].
    + split; [discriminate|now left].
    + repeat split; auto.
  - destruct (String.eqb_spec (extensionOf f) "csv") as [Hc|Hc];
      [|destruct (String.eqb_spec (extensionOf f) "txt") as [Ht|Ht]];
      cbn [orb negb].
    + destruct (N.ltb_spec maxBytes (fileSize f)) as [Hs|Hs]; cbn [fst snd].
      * split; [discriminate|now left].
      * repeat split; auto.
    + destruct (N.ltb_spec maxBytes (fileSize f)) as [Hs|Hs]; cbn [fst snd].
      * split; [discriminate|now left].
      * repeat split; auto.
    + cbn [fst snd]. split; [discriminate|right].
      intros [H|[H|[H|[]]]]; congruence.
Qed.

(** ** The table that is shown *)

(** X16: The cells that come out of the parser are already normalized, so that
    on a parsed table the cleaning is its two removal passes only. *)
Theorem applyCleaning_after_parse
    (o : CleaningOptions) (lines : list string) (d : option string) :
  let parsed := parseRowsSimple lines d (collapseSpacesOpt o) in
  applyCleaning o parsed =
    (if removeEmptyColsOpt o then removeEmptyColumns else fun u => u)
      ((if removeEmptyRowsOpt o then filter rowHasAnyValue else fun u => u)
         parsed).
Proof.
  cbv zeta. unfold applyCleaning.
  rewrite (normalized_fixed (collapseSpacesOpt o)
             (parseRowsSimple lines d (collapseSpacesOpt o))).
  - destruct (removeEmptyRowsOpt o), (removeEmptyColsOpt o); reflexivity.
  - unfold parseRowsSimple. intros r c Hr Hc.
    apply in_map_iff in Hr as (line & <- & _).
    apply in_map_iff in Hc as (c0 & <- & _). apply normalizeCell_idempotent.
Qed.

(** X17: Whatever the path it came by (spreadsheet, custom delimiter,
    comma-separated reader or auto-detection), the table that is shown is
    left as it is by a second cleaning with the options of the state. *)
Theorem tableAndDetected_clean (papaParse : string -> table) (st : AppState) :
  applyCleaning (options st) (parsedTable (tableAndDetected papaParse st))
  = parsedTable (tableAndDetected papaParse st).
Proof.
  unfold tableAndDetected.
  destruct (importedTable st) as [[|r t]|];
    try (cbn [parsedTable]; apply applyCleaning_idempotent);
    destruct (customDelimiter st);
    try (cbn [parsedTable]; apply applyCleaning_idempotent);
    destruct (looksLikeCSV _); cbn [parsedTable];
    apply applyCleaning_idempotent.
Qed.

(** ** Blank cells *)

Lemma trimStart_empty s : JS.trimStart s = "" <-> allWhitespace s = true.
Proof.
  induction s as [|c s IH]; simpl; [tauto|].
  destruct (isWhitespace c); simpl; [exact IH|]. split; discriminate.
Qed.

Lemma trimEnd_empty s : startsClean s = true -> JS.trimEnd s = "" -> s = "".
Proof.
  destruct s as [|c s]; [reflexivity|]. simpl. intros Hc.
  destruct (JS.trimEnd s); [|discriminate].
  destruct (isWhitespace c); discriminate.
Qed.

(** X2: A cell counts as having a value exactly when one of its characters is
    not white space. *)
Theorem cellHasValue_spec (c : string) :
  cellHasValue c = negb (allWhitespace c).
Proof.
  unfold cellHasValue, JS.trim. f_equal.
  destruct (allWhitespace c) eqn:Hall.
  - apply trimStart_empty in Hall. now rewrite Hall.
  - apply String.eqb_neq. intros He.
    apply trimEnd_empty in He; [|apply trimStart_startsClean].
    apply trimStart_empty in He. congruence.
Qed.

(** ** Pasting the copied text into the tool *)

Lemma applyCleaning_normalized_input o t :
  applyCleaning o (map (map (fun c => normalizeCell c (collapseSpacesOpt o))) t)
  = applyCleaning o t.
Proof.
  change (map (map (fun c => normalizeCell c (collapseSpacesOpt o))) t)
    with (map (fun r => map (fun c => normalizeCell c (collapseSpacesOpt o)) r) t).
  unfold applyCleaning.
  now rewrite (normalized_fixed (collapseSpacesOpt o) _
                 (normalized_map (collapseSpacesOpt o) t)).
Qed.

Lemma not_looksLikeCSV lines :
  Forall (fun line => occurs "," line = false) lines -> looksLikeCSV lines = false.
Proof.
  intros H. unfold looksLikeCSV.
  assert (He : existsb (fun r => JS.includes "," r) lines = false).
  { induction H as [|line lines Hl _ IH]; [reflexivity|].
    simpl. now rewrite includes_char, Hl, IH. }
  now rewrite He, andb_false_r.
Qed.

(** X15: End to end: with no imported table and no custom delimiter, pasting the
    text copied for spreadsheets from a table [t] shows the cleaning of [t]
    under the label [tabs], when [t] has rows, its rows have the same number
    of cells, two at least, and no cell holds a tab, a line feed, a carriage
    return or a comma. *)
Theorem pasted_tsv_view
    (papaParse : string -> table) (st : AppState) (t : table) (w : nat) :
  t <> [] ->
  2 <= w ->
  Forall (fun r => List.length r = w) t ->
  Forall (Forall (fun c => (occurs TAB c = false /\ occurs LF c = false
                            /\ occurs CR c = false) /\ occurs "," c = false)) t ->
  importedTable st = None ->
  customDelimiter st = "" ->
  text st = toTSV t ->
  tableAndDetected papaParse st
  = {| parsedTable := clean t (options st); detected := "tabs" |}.
Proof.
  intros Hne Hw Hwidth Hcells Himp Hdelim Htext.
  assert (Hcells' : Forall (Forall (fun c => occurs TAB c = false
                     /\ occurs LF c = false /\ occurs CR c = false)) t).
  { eapply Forall_impl; [|exact Hcells]. intros r Hr.
    eapply Forall_impl; [|exact Hr]. intros c [Hc _]. exact Hc. }
  unfold tableAndDetected. rewrite Himp, Hdelim, Htext.
  rewrite (tsv_lines t w Hne Hw Hwidth Hcells').
  rewrite not_looksLikeCSV.
  - rewrite <- (tsv_lines t w Hne Hw Hwidth Hcells').
    rewrite (tsv_detected t w Hne Hw Hwidth Hcells').
    cbn [parsedTable detected]. now rewrite applyCleaning_normalized_input.
  - apply Forall_forall. intros line Hl.
    apply in_map_iff in Hl as (r & <- & Hr).
    apply occurs_join; [reflexivity|].
    rewrite Forall_forall in Hcells. specialize (Hcells r Hr).
    eapply Forall_impl; [|exact Hcells]. intros c [_ Hc]. exact Hc.
Qed.

Lemma pasted_tsv_view_witness :
  tableAndDetected (fun _ => [])
    {| text := toTSV [["Name"; "Age"; ""]; ["  Alice "; "24"; " "]];
       customDelimiter := ""; importedTable := None; importedMeta := "";
       excludeFirstRowExport := false; options := allOptions;
       isDragging := false; fileInfo := ""; fileError := "" |}
  = {| parsedTable := [["Name"; "Age"]; ["Alice"; "24"]]; detected := "tabs" |}.
Proof.
  assert (H1 : [["Name"; "Age"; ""]; ["  Alice "; "24"; " "]] <> [])
    by discriminate.
  assert (H2 : 2 <= 3) by lia.
  assert (H3 : Forall (fun r : row => List.length r = 3)
                      [["Name"; "Age"; ""]; ["  Alice "; "24"; " "]])
    by (repeat constructor).
  assert (H4 : Forall (Forall (fun c =>
                 (occurs TAB c = false /\ occurs LF c = false
                  /\ occurs CR c = false) /\ occurs "," c = false))
                 [["Name"; "Age"; ""]; ["  Alice "; "24"; " "]])
    by (repeat constructor).
  exact (pasted_tsv_view (fun _ => [])
           {| text := toTSV [["Name"; "Age"; ""]; ["  Alice "; "24"; " "]];
              customDelimiter := ""; importedTable := None; importedMeta := "";
              excludeFirstRowExport := false; options := allOptions;
              isDragging := false; fileInfo := ""; fileError := "" |}
           [["Name"; "Age"; ""]; ["  Alice "; "24"; " "]] 3
           H1 H2 H3 H4 eq_refl eq_refl eq_refl).
Defined.
